(** * somber: a batched Self-Organizing Map (somber/som.py)

    A shallow embedding of [Scaler] and [Som] and the properties of the
    training loop, the predictor, the distance grid and persistence.

    Arrays are nested lists, rectangular by invariant ([rect]).
    The element type is an interface, [Scalar], as the source is written
    against an array module [xp] that is numpy or cupy: structural theorems
    hold for every instance, arithmetic ones are proved for the reals
    ([R_scalar]), and concrete runs are evaluated on binary64 machine floats
    ([float_scalar]).  What som.py imports from outside the file (the random
    generator of the array module, sklearn's PCA, the schedule functions of
    utils) is the interface [Externals]. *)

From Stdlib Require Import String.
From Stdlib Require Import ZArith Reals Lra Lia Arith Bool Floats List Permutation.
Import ListNotations.

Set Implicit Arguments.

(** ** The array module's scalars *)

Class Scalar (F : Type) : Type := {
  of_Z : Z -> F;                 (* an int used as a float *)
  lit : Z -> positive -> F;      (* the decimal literal n/d *)
  fadd : F -> F -> F;
  fsub : F -> F -> F;
  fmul : F -> F -> F;
  fdiv : F -> F -> F;
  fopp : F -> F;
  fsqrt : F -> F;
  fexp : F -> F;
  fltb : F -> F -> bool;         (* a < b *)
  ffloor : F -> Z;
  fceil : F -> Z
}.

Definition f0 {F} `{Scalar F} : F := of_Z 0.
Definition of_nat {F} `{Scalar F} (n : nat) : F := of_Z (Z.of_nat n).

(** Exact real arithmetic. *)
Definition Rltb (a b : R) : bool := if Rlt_dec a b then true else false.
Definition Rfloor (x : R) : Z := Int_part x.
Definition Rceil (x : R) : Z := (- Int_part (- x))%Z.

#[export] Instance R_scalar : Scalar R := {
  of_Z := IZR;
  lit := fun n d => (IZR n / IZR (Zpos d))%R;
  fadd := Rplus; fsub := Rminus; fmul := Rmult; fdiv := Rdiv;
  fopp := Ropp;
  fsqrt := R_sqrt.sqrt; fexp := Rtrigo_def.exp;
  fltb := Rltb;
  ffloor := Rfloor; fceil := Rceil
}.

(** Binary64 floats. *)
Definition float_of_Z (z : Z) : float :=
  match z with
  | Z0 => PrimFloat.zero
  | Zpos _ => PrimFloat.of_uint63 (Uint63.of_Z z)
  | Zneg p => PrimFloat.opp (PrimFloat.of_uint63 (Uint63.of_Z (Zpos p)))
  end.

Definition float_floor (x : float) : Z :=
  match Prim2SF x with
  | S754_finite s m e =>
      let q := if (0 <=? e)%Z then Z.shiftl (Zpos m) e else Z.shiftr (Zpos m) (- e) in
      let exact := if (0 <=? e)%Z then true else (Z.shiftl q (- e) =? Zpos m)%Z in
      if s then (if exact then - q else - q - 1)%Z else q
  | _ => 0%Z
  end.

Definition float_ceil (x : float) : Z := (- float_floor (PrimFloat.opp x))%Z.

(** exp by scaling and squaring of a truncated series. *)
Fixpoint float_exp_series (k : nat) (x term acc : float) (i : float) : float :=
  match k with
  | O => acc
  | S k' =>
      let term' := PrimFloat.div (PrimFloat.mul term x) i in
      float_exp_series k' x term' (PrimFloat.add acc term') (PrimFloat.add i PrimFloat.one)
  end.

Fixpoint float_square_n (k : nat) (x : float) : float :=
  match k with
  | O => x
  | S k' => float_square_n k' (PrimFloat.mul x x)
  end.

Definition float_exp (x : float) : float :=
  let k := Z.to_nat (Z.log2_up (float_ceil (PrimFloat.abs x)) + 8) in
  let y := PrimFloat.div x (float_of_Z (2 ^ Z.of_nat k)) in
  float_square_n k (float_exp_series 20 y PrimFloat.one PrimFloat.one PrimFloat.one).

#[export] Instance float_scalar : Scalar float := {
  of_Z := float_of_Z;
  lit := fun n d => PrimFloat.div (float_of_Z n) (float_of_Z (Zpos d));
  fadd := PrimFloat.add; fsub := PrimFloat.sub;
  fmul := PrimFloat.mul; fdiv := PrimFloat.div;
  fopp := PrimFloat.opp;
  fsqrt := PrimFloat.sqrt; fexp := float_exp;
  fltb := PrimFloat.ltb;
  ffloor := float_floor; fceil := float_ceil
}.

(** ** Python exceptions *)

Inductive exn : Type :=
| ValueError (msg : string)
| ZeroDivisionError
| IndexError
| TypeError
| FileNotFoundError.

Definition result (A : Type) : Type := (exn + A)%type.

(** ** List helpers for array operations *)

Section Lists.
Context {A B C : Type}.

Definition map2 (f : A -> B -> C) (l : list A) (l' : list B) : list C :=
  map (fun p => f (fst p) (snd p)) (combine l l').

(** [imap f l]: [f i x] for the element [x] at index [i]. *)
Fixpoint imap_from (i : nat) (f : nat -> A -> B) (l : list A) : list B :=
  match l with
  | [] => []
  | x :: l' => f i x :: imap_from (S i) f l'
  end.
Definition imap := imap_from 0.

(** Row-major view of a flat list as [n] rows of [m]. *)
Fixpoint chunks (n m : nat) (l : list A) : list (list A) :=
  match n with
  | O => []
  | S n' => firstn m l :: chunks n' m (skipn m l)
  end.

(** ndarray.reshape to two axes: the sizes must agree. *)
Definition reshape2 (n m : nat) (l : list A) : result (list (list A)) :=
  if length l =? n * m then inr (chunks n m l)
  else inl (ValueError "cannot reshape array").

Fixpoint mapM (f : A -> result B) (l : list A) : result (list B) :=
  match l with
  | [] => inr []
  | x :: l' =>
      match f x with
      | inl e => inl e
      | inr y => match mapM f l' with
                 | inl e => inl e
                 | inr ys => inr (y :: ys)
                 end
      end
  end.
End Lists.

(** A list of rows is rectangular, [n] by [m]. *)
Definition rect {A} (n m : nat) (a : list (list A)) : Prop :=
  length a = n /\ Forall (fun r => length r = m) a.

Abbreviation matrix F := (list (list F)) (only parsing).

(** ** Input arrays: a backend, a shape and the row-major data *)

Inductive backend := numpy | cupy.

Definition backend_eqb (a b : backend) : bool :=
  match a, b with
  | numpy, numpy | cupy, cupy => true
  | _, _ => false
  end.

Record ndarray (F : Type) := mk_ndarray {
  module : backend;
  shape : list nat;
  flat : list F
}.

Definition ndim {F} (X : ndarray F) : nat := length (shape X).
Definition shape0 {F} (X : ndarray F) : nat := nth 0 (shape X) 0.
Definition shape1 {F} (X : ndarray F) : nat := nth 1 (shape X) 0.
(** The rows of a 2-D array. *)
Definition rows {F} (X : ndarray F) : matrix F :=
  chunks (shape0 X) (shape1 X) (flat X).
Definition of_rows {F} (xp : backend) (d : nat) (a : matrix F) : ndarray F :=
  mk_ndarray xp [length a; d] (concat a).

(** ** State and exceptions

    A method runs on a state; an exception leaves the state as it is at the
    raise. *)

Definition Exc (St A : Type) : Type := St -> St * result A.
Definition ret {St A} (x : A) : Exc St A := fun st => (st, inr x).
Definition raise {St A} (e : exn) : Exc St A := fun st => (st, inl e).
Definition bind {St A B} (c : Exc St A) (k : A -> Exc St B) : Exc St B := fun st =>
  match c st with
  | (st', inl e) => (st', inl e)
  | (st', inr x) => k x st'
  end.
Definition lift {St A} (r : result A) : Exc St A := fun st => (st, r).

Notation "x <- c ;; k" := (bind c (fun x => k))
  (at level 61, c at next level, right associativity).
Notation "c ;;; k" := (bind c (fun _ => k))
  (at level 61, right associativity).

(** ** What som.py imports from outside the file *)

Class Externals (F RNG : Type) : Type := {
  (* RNG: the state of the global generator of numpy.random / cupy.random *)
  random_seed : Z -> RNG;
  random_sample : RNG -> F * RNG;              (* one draw, uniform in [0, 1) *)
  random_interval : nat -> RNG -> nat * RNG;   (* an index in 0..max, for shuffle *)
  (* sklearn.decomposition.PCA(n_components=2).fit: components_ (2 rows) and
     explained_variance_ *)
  PCA_fit : matrix F -> RNG -> result (matrix F * list F) * RNG;
  (* utils.expo and utils.linear: (initial value, current step, total steps) *)
  expo : F -> nat -> nat -> F;
  linear : F -> nat -> nat -> F
}.

Section Model.
Context {F RNG : Type} {SF : Scalar F} {EF : Externals F RNG}.

(** *** Reductions and broadcasting *)

Definition fsum (l : list F) : F := fold_left fadd l f0.

(** Column [f] of a list of rows. *)
Definition col (f : nat) (X : matrix F) : list F := map (fun r => nth f r f0) X.

(** A reduction over axis 0 of an array with [d] columns. *)
Definition reduce0 (g : list F -> F) (d : nat) (X : matrix F) : list F :=
  map (fun f => g (col f X)) (seq 0 d).

Definition mean (l : list F) : F := fdiv (fsum l) (of_nat (length l)).
Definition std (l : list F) : F :=
  let m := mean l in
  fsqrt (mean (map (fun x => fmul (fsub x m) (fsub x m)) l)).
Definition minimum (l : list F) : F :=
  match l with
  | [] => f0
  | x :: l' => fold_left (fun a b => if fltb b a then b else a) l' x
  end.
Definition maximum (l : list F) : F :=
  match l with
  | [] => f0
  | x :: l' => fold_left (fun a b => if fltb a b then b else a) l' x
  end.

(** A scalar or a vector, broadcast against the last axis. *)
Inductive bvec := bscalar (x : F) | bvector (v : list F).
Definition bget (b : bvec) (f : nat) : F :=
  match b with
  | bscalar x => x
  | bvector v => nth f v f0
  end.

(** *** Scaler *)

Record Scaler := mk_Scaler {
  scaler_mean : bvec;
  scaler_std : bvec;
  is_fit : bool
}.

Definition Scaler_init : Scaler := mk_Scaler (bscalar f0) (bscalar f0) false.

(** [Scaler.fit] on an array of [d] columns. *)
Definition Scaler_fit (d : nat) (X : matrix F) : Scaler :=
  mk_Scaler (bvector (reduce0 mean d X)) (bvector (reduce0 std d X)) true.

(** The literal 10e-6. *)
Definition epsilon : F := lit 10 1000000.

Definition transform (sc : Scaler) (X : matrix F) : matrix F :=
  map (imap (fun f x =>
               fdiv (fsub x (bget (scaler_mean sc) f))
                    (fadd (bget (scaler_std sc) f) epsilon))) X.

Definition inverse_transform (sc : Scaler) (X : matrix F) : matrix F :=
  map (imap (fun f x => fadd (fmul x (bget (scaler_std sc) f))
                             (bget (scaler_mean sc) f))) X.

(** [Scaler.fit_transform]: the fitted scaler and the scaled array. *)
Definition fit_transform (d : nat) (X : matrix F) : Scaler * matrix F :=
  let sc := Scaler_fit d X in (sc, transform sc X).

(** *** The model object *)

(** A schedule function; [Som.save] compares it with [expo]. *)
Inductive schedule :=
| sched_expo
| sched_linear
| sched_custom (f : F -> nat -> nat -> F).

Definition run_schedule (s : schedule) : F -> nat -> nat -> F :=
  match s with
  | sched_expo => expo
  | sched_linear => linear
  | sched_custom f => f
  end.

(** [min_max(a, 1)] on one row of [a]: the extremum and its index; [None]
    where the reduction raises. *)
Definition extremum := list F -> option (F * nat).

Record Som := mk_Som {
  sigma : F;
  learning_rate : F;
  map_dimensions : list nat;
  weight_dim : nat;
  weights : matrix F;
  data_dim : nat;
  lrfunc : schedule;
  nbfunc : schedule;
  distance_grid : option (list (matrix F));
  min_max : extremum;
  trained : bool;
  scaler : Scaler
}.

Definition set_weights (w : matrix F) (s : Som) : Som :=
  mk_Som (sigma s) (learning_rate s) (map_dimensions s) (weight_dim s) w
         (data_dim s) (lrfunc s) (nbfunc s) (distance_grid s) (min_max s)
         (trained s) (scaler s).
Definition set_scaler (sc : Scaler) (s : Som) : Som :=
  mk_Som (sigma s) (learning_rate s) (map_dimensions s) (weight_dim s)
         (weights s) (data_dim s) (lrfunc s) (nbfunc s) (distance_grid s)
         (min_max s) (trained s) sc.
Definition set_distance_grid (g : option (list (matrix F))) (s : Som) : Som :=
  mk_Som (sigma s) (learning_rate s) (map_dimensions s) (weight_dim s)
         (weights s) (data_dim s) (lrfunc s) (nbfunc s) g (min_max s)
         (trained s) (scaler s).
Definition set_trained (b : bool) (s : Som) : Som :=
  mk_Som (sigma s) (learning_rate s) (map_dimensions s) (weight_dim s)
         (weights s) (data_dim s) (lrfunc s) (nbfunc s) (distance_grid s)
         (min_max s) b (scaler s).

(** Modelled from the spec: utils.np_min, the default [min_max] (utils is
    not among the sources). "Default: arg-min over units, closest wins";
    the first minimum is taken, as numpy's argmin does, and an empty row
    has no minimum. *)
Fixpoint argmin_from (i best_i : nat) (best : F) (l : list F) : F * nat :=
  match l with
  | [] => (best, best_i)
  | x :: l' =>
      if fltb x best then argmin_from (S i) i x l'
      else argmin_from (S i) best_i best l'
  end.
Definition np_min : extremum := fun row =>
  match row with
  | [] => None
  | x :: l => Some (argmin_from 1 0 x l)
  end.

(** Modelled from the spec: utils.np_max, the "arg-max variant" of
    [min_max]. *)
Fixpoint argmax_from (i best_i : nat) (best : F) (l : list F) : F * nat :=
  match l with
  | [] => (best, best_i)
  | x :: l' =>
      if fltb best x then argmax_from (S i) i x l'
      else argmax_from (S i) best_i best l'
  end.
Definition np_max : extremum := fun row =>
  match row with
  | [] => None
  | x :: l => Some (argmax_from 1 0 x l)
  end.

(** An integer as int64 holds it: two's complement wrap-around. *)
Definition int64_wrap (z : Z) : Z := ((z + 2 ^ 63) mod 2 ^ 64 - 2 ^ 63)%Z.

(** [int(reduce(np.multiply, map_dim, 1))]: np.multiply takes the product in
    int64, the default integer of the array module, and every step wraps
    around. The dimensions themselves are taken to fit in int64. *)
Definition unit_count (map_dim : list nat) : Z :=
  fold_left (fun acc n => int64_wrap (acc * Z.of_nat n)) map_dim 1%Z.

(** [Som.__init__]. [np.zeros] rejects a negative unit count. *)
Definition Som_init (map_dim : list nat) (data_dim : nat) (learning_rate : F)
           (lrfunc nbfunc : schedule) (sigma : option F) (min_max : extremum)
  : result Som :=
  match (match sigma with
         | Some s => inr s
         | None =>
             match map_dim with
             | [] => inl (ValueError "max() arg is an empty sequence")
             | _ => inr (fadd (fdiv (of_nat (fold_right Nat.max 0 map_dim)) (of_Z 2))
                              (lit 1 100))
             end
         end) with
  | inl e => inl e
  | inr sg =>
      let weight_dim := unit_count map_dim in
      if (weight_dim <? 0)%Z
      then inl (ValueError "negative dimensions are not allowed")
      else inr (mk_Som sg learning_rate map_dim (Z.to_nat weight_dim)
                       (repeat (repeat f0 data_dim) (Z.to_nat weight_dim)) data_dim
                       lrfunc nbfunc None min_max false Scaler_init)
  end.

(** *** The state of a method call: the object [self] and the two global
    generators *)

Record state := mk_state {
  self : Som;
  np_random : RNG;
  cp_random : RNG
}.

Definition M := Exc state.
Definition get_self : M Som := fun st => (st, inr (self st)).
Definition modify_self (g : Som -> Som) : M unit := fun st =>
  (mk_state (g (self st)) (np_random st) (cp_random st), inr tt).
(** Run a computation on the generator of array module [xp]. *)
Definition with_rng {A} (xp : backend) (g : RNG -> A * RNG) : M A := fun st =>
  match xp with
  | numpy => let (x, r) := g (np_random st) in
             (mk_state (self st) r (cp_random st), inr x)
  | cupy => let (x, r) := g (cp_random st) in
            (mk_state (self st) (np_random st) r, inr x)
  end.

(** *** shuffle and the Batcher *)

Fixpoint set_nth {A} (i : nat) (x : A) (l : list A) : list A :=
  match l, i with
  | [], _ => []
  | _ :: l', O => x :: l'
  | y :: l', S i' => y :: set_nth i' x l'
  end.

Definition swap {A} (i j : nat) (l : list A) : list A :=
  match nth_error l i, nth_error l j with
  | Some a, Some b => set_nth i b (set_nth j a l)
  | _, _ => l
  end.

(** numpy.random.shuffle along the first axis: for i = n-1 down to 1,
    exchange row i with a row drawn from 0..i. *)
Fixpoint shuffle_from {A} (i : nat) (z : list A) (g : RNG) : list A * RNG :=
  match i with
  | O => (z, g)
  | S i' =>
      let (j, g') := random_interval i g in
      shuffle_from i' (swap i j z) g'
  end.

(** [shuffle(array)]: the rows are drawn with numpy's generator, also for
    a cupy array. *)
Definition shuffle (X : matrix F) : M (matrix F) :=
  with_rng numpy (shuffle_from (length X - 1) X).

Definition ceil_div (n m : nat) : nat := (n + m - 1) / m.

(** Modelled from the spec: utils.resize (utils is not among the sources).
    "Pad the array with zero rows so n is an exact multiple of batch_size,
    and reshape to (num_batches, batch_size, data_dim)". *)
Definition resize (X : matrix F) (num_batches batch_size d : nat)
  : list (matrix F) :=
  chunks num_batches batch_size
         (X ++ repeat (repeat f0 d) (num_batches * batch_size - length X)).

(** [Som._create_batches] on an array of [d] columns. *)
Definition _create_batches (d : nat) (X : matrix F) (batch_size : nat)
           (shuffle_data : bool) : M (list (matrix F)) :=
  X <- (if shuffle_data then shuffle X else ret X) ;;
  let batch_size := if length X <? batch_size then length X else batch_size in
  if batch_size =? 0 then raise ZeroDivisionError
  else ret (resize X (ceil_div (length X) batch_size) batch_size d).

(** *** Forward: distances of a batch to every unit *)

Definition _distance_difference (x : matrix F) (W : matrix F)
  : list (matrix F) :=
  map (fun xb => map (fun w => map2 fsub xb w) W) x.

Definition norm (v : list F) : F := fsqrt (fsum (map (fun a => fmul a a) v)).

Definition distance_function (x : matrix F) (W : matrix F)
  : matrix F * list (matrix F) :=
  let diff := _distance_difference x W in
  (map (map norm) diff, diff).

Definition forward (s : Som) (x : matrix F) : matrix F * list (matrix F) :=
  distance_function x (weights s).

(** *** Backward: the update *)

(** [min_max(activations, 1)\[1\]]. *)
Definition bmu_of (mm : extremum) (row : list F) : result nat :=
  match mm row with
  | Some (_, i) => inr i
  | None => inl (ValueError "zero-size array to reduction operation")
  end.

(** [influences\[bmu\]]; the influence tensor is kept without its trailing
    axis of length 1. *)
Definition gather (influences : matrix F) (bmu : list nat) : result (matrix F) :=
  mapM (fun i => match nth_error influences i with
                 | Some r => inr r
                 | None => inl IndexError
                 end) bmu.

Definition _apply_influences (s : Som) (activations influences : matrix F)
  : result (matrix F) :=
  match mapM (bmu_of (min_max s)) activations with
  | inl e => inl e
  | inr bmu => gather influences bmu
  end.

(** [xp.multiply(x, influence)], the influence broadcast over the features. *)
Definition _calculate_update (x : list (matrix F)) (influence : matrix F)
  : list (matrix F) :=
  map2 (fun xb ib => map2 (fun xbu i => map (fun v => fmul v i) xbu) xb ib)
       x influence.

(** Entry (u, f) of [update.mean(0)]. *)
Definition mean_axis0 (update : list (matrix F)) (u f : nat) : F :=
  mean (map (fun m => nth f (nth u m []) f0) update).

(** [W += update.mean(0)], in place: every cell of [W] is incremented. *)
Definition iadd_mean (W : matrix F) (update : list (matrix F)) : matrix F :=
  imap (fun u row => imap (fun f w => fadd w (mean_axis0 update u f)) row) W.

Definition backward (diff_x : list (matrix F)) (influences activation : matrix F)
  : M unit :=
  s <- get_self ;;
  influence <- lift (_apply_influences s activation influences) ;;
  let update := _calculate_update diff_x influence in
  modify_self (fun s => set_weights (iadd_mean (weights s) update) s).

Definition _propagate (x : matrix F) (influences : matrix F) : M (matrix F) :=
  s <- get_self ;;
  let (activation, difference_x) := forward s x in
  backward difference_x influences activation ;;;
  ret activation.

(** *** Distance grid and influence *)

(** [Som._grid_distance]: the [width] by [height] array of squared grid
    distances to unit [index]. *)
Definition _grid_distance (s : Som) (index : nat) : result (list (list Z)) :=
  match map_dimensions s with
  | [width; height] =>
      if height =? 0 then inl ZeroDivisionError
      else
        let row := Z.of_nat (index / height) in
        let column := Z.of_nat (index mod height) in
        let x := map (fun a => (Z.abs (Z.of_nat a - row) ^ 2)%Z) (seq 0 width) in
        let y := map (fun b => (Z.abs (Z.of_nat b - column) ^ 2)%Z) (seq 0 height) in
        inr (map (fun xa => map (fun yb => (xa + yb)%Z) y) x)
  | _ => inl (ValueError "wrong number of values to unpack")
  end.

(** [Som._initialize_distance_grid]: one grid per unit, as floats. *)
Definition _initialize_distance_grid (s : Som) : result (list (matrix F)) :=
  mapM (fun i => match _grid_distance s i with
                 | inl e => inl e
                 | inr g => inr (map (map of_Z) g)
                 end) (seq 0 (weight_dim s)).

(** [Som._calculate_influence]; the trailing axis of length 1 is left out. *)
Definition _calculate_influence (s : Som) (sg : F) : result (matrix F) :=
  match distance_grid s with
  | None => inl TypeError
  | Some D =>
      let grid :=
        map (map (map (fun v =>
          fexp (fdiv (fopp v) (fmul (of_Z 2) (fmul sg sg)))))) D in
      reshape2 (weight_dim s) (weight_dim s) (concat (concat grid))
  end.

Definition scale (c : F) (a : matrix F) : matrix F := map (map (fun v => fmul v c)) a.
Definition unscale (c : F) (a : matrix F) : matrix F := map (map (fun v => fdiv v c)) a.

(** *** The schedule and the epoch loop *)

(** [set(xp.arange(step, stop + step, step).tolist())] for an integral
    [step]: the multiples step, 2 step, ... below stop + step. *)
Definition update_steps (step : Z) (stop : F) : list Z :=
  let count := fceil (fdiv (fsub (fadd stop (of_Z step)) (of_Z step)) (of_Z step)) in
  map (fun k => (step * Z.of_nat (S k))%Z) (seq 0 (Z.to_nat count)).

Definition in_steps (idx : nat) (steps : list Z) : bool :=
  existsb (Z.eqb (Z.of_nat idx)) steps.

(** The loop variables idx, nb_step, lr_step, influences. *)
Record counters := mk_counters {
  idx : nat;
  nb_step : nat;
  lr_step : nat;
  influences : matrix F
}.

(** The body of [for x in X] in [Som._epoch]. *)
Fixpoint epoch_loop (X : list (matrix F)) (data_len batch_size : nat)
         (nb_update_steps lr_update_steps : list Z)
         (num_processed : nat) (lr : F) (c : counters) : M counters :=
  match X with
  | [] => ret c
  | x :: X' =>
      let x :=
        if data_len <? num_processed + batch_size
        then firstn (length x - (num_processed + batch_size - data_len)) x
        else x in
      _propagate x (influences c) ;;;
      s <- get_self ;;
      c1 <- (if in_steps (idx c) nb_update_steps then
               let nb := S (nb_step c) in
               let map_radius :=
                 run_schedule (nbfunc s) (sigma s) nb (length nb_update_steps) in
               infl <- lift (_calculate_influence s map_radius) ;;
               ret (mk_counters (idx c) nb (lr_step c) (scale lr infl))
             else ret c) ;;
      let (c2, lr2) :=
        if in_steps (idx c) lr_update_steps then
          let ls := S (lr_step c1) in
          let lr' := run_schedule (lrfunc s) (learning_rate s) ls
                                  (length lr_update_steps) in
          (mk_counters (idx c1) (nb_step c1) ls
                       (scale lr' (unscale lr (influences c1))), lr')
        else (c1, lr) in
      epoch_loop X' data_len batch_size nb_update_steps lr_update_steps
                 (num_processed + batch_size) lr2
                 (mk_counters (S (idx c2)) (nb_step c2) (lr_step c2) (influences c2))
  end.

(** [Som._epoch] on the scaled data [X] of [d] columns. *)
Definition _epoch (d : nat) (X : matrix F) (nb_update_steps lr_update_steps : list Z)
           (batch_size : nat) (c : counters) : M counters :=
  let data_len := length X in
  X <- _create_batches d X batch_size true ;;
  s <- get_self ;;
  let lr := run_schedule (lrfunc s) (learning_rate s) (lr_step c)
                         (length lr_update_steps) in
  epoch_loop X data_len batch_size nb_update_steps lr_update_steps 0 lr c.

Fixpoint epochs (num_epochs : nat) (d : nat) (X : matrix F)
         (nb_update_steps lr_update_steps : list Z)
         (batch_size : nat) (c : counters) : M counters :=
  match num_epochs with
  | O => ret c
  | S k =>
      c' <- _epoch d X nb_update_steps lr_update_steps batch_size c ;;
      epochs k d X nb_update_steps lr_update_steps batch_size c'
  end.

(** *** fit *)

(** [Som._check_input]. *)
Definition _check_input (s : Som) (X : ndarray F) : result unit :=
  if negb (ndim X =? 2) then inl (ValueError "Your data is not a 2D matrix.")
  else if negb (shape1 X =? data_dim s)
       then inl (ValueError "Your data size != weight dim")
       else inr tt.

(** The PCA seeding of [fit], lines 202-221, from the scaled data. *)
Definition pca_weights (s : Som) (d : nat) (X : matrix F) : M (matrix F) :=
  match nth_error (map_dimensions s) 1 with
  | None => raise IndexError
  | Some height =>
      let U := length (weights s) in
      let coord := map (fun u =>
        let x := u / height in
        let y := if height =? 0 then 0 else u mod height in
        map (fun c => fmul (fsub (fdiv (of_nat c) (of_nat height)) (lit 5 10))
                           (of_Z 2)) [x; y]) (seq 0 U) in
      let mu := reduce0 mean d X in
      let temp := map (fun r => map2 fsub r mu) X in
      r <- with_rng numpy (fun g => PCA_fit temp g) ;;
      match r with
      | inl e => raise e
      | inr (eigvec, eigval) =>
          let norms := map (fun v => fsqrt (fsum (map (fun a => fmul a a) v))) eigvec in
          let eigvec := imap (fun k v =>
            map (fun a => fmul (fdiv a (nth k norms f0)) (nth k eigval f0)) v) eigvec in
          ret (map (fun cu =>
                 imap (fun f m =>
                   fadd (fsum (imap (fun k ck => fmul ck (nth f (nth k eigvec []) f0)) cu))
                        m) mu) coord)
      end
  end.

(** [xp.random.rand(n, m)]: n * m draws, row-major. *)
Fixpoint draws (k : nat) (g : RNG) : list F * RNG :=
  match k with
  | O => ([], g)
  | S k' => let (x, g1) := random_sample g in
            let (l, g2) := draws k' g1 in
            (x :: l, g2)
  end.
Definition rand (n m : nat) (g : RNG) : matrix F * RNG :=
  let (l, g') := draws (n * m) g in (chunks n m l, g').

(** The uniform seeding of [fit], lines 223-227. *)
Definition seed_random (d : nat) (X : matrix F) (r : matrix F) : matrix F :=
  let min_val := reduce0 minimum d X in
  let max_val := reduce0 maximum d X in
  let data_range := map2 fadd min_val (map2 fsub max_val min_val) in
  map (fun row => map2 fmul data_range row) r.

Definition random_weights (xp : backend) (s : Som) (d : nat) (X : matrix F)
  : M (matrix F) :=
  if (length X =? 0) && negb (d =? 0)
  then raise (ValueError "zero-size array to reduction operation minimum")
  else
    r <- with_rng xp (rand (length (weights s)) d) ;;
    ret (seed_random d X r).

Record fit_args := mk_fit_args {
  num_epochs : nat;
  init_pca : bool;
  total_updates : nat;
  stop_lr_updates : F;
  stop_nb_updates : F;
  batch_size : nat;
  seed : Z
}.

(** The defaults of [fit]. *)
Definition default_fit_args : fit_args :=
  mk_fit_args 10 true 50 (of_Z 1) (of_Z 1) 100 44.

Definition step_size (train_len : nat) (stop_updates : F) (total : nat) : Z :=
  Z.max (ffloor (fdiv (fmul (of_nat train_len) stop_updates) (of_nat total))) 1.

(** [Som.fit]. The casts to float32 ([xp.asarray], [_ensure_params]) are the
    identity on the scalar type, and logging is left out. *)
Definition fit (X : ndarray F) (a : fit_args) : M unit :=
  let xp := module X in
  s <- get_self ;;
  lift (_check_input s X) ;;;
  let d := shape1 X in
  let sc := Scaler_fit d (rows X) in
  modify_self (set_scaler sc) ;;;
  let X := transform sc (rows X) in
  with_rng xp (fun _ => (tt, random_seed (seed a))) ;;;
  s <- get_self ;;
  w <- (if init_pca a then
          if backend_eqb xp cupy
          then raise (ValueError "PCA is currently not supported on GPU.")
          else pca_weights s d X
        else random_weights xp s d X) ;;
  modify_self (set_weights w) ;;;
  let batch_size := if length X <? batch_size a then length X else batch_size a in
  if batch_size =? 0 then raise ZeroDivisionError else
  let train_len := (length X * num_epochs a) / batch_size in
  _create_batches d X batch_size true ;;;
  s <- get_self ;;
  grid <- lift (_initialize_distance_grid s) ;;
  modify_self (set_distance_grid (Some grid)) ;;;
  if total_updates a =? 0 then raise ZeroDivisionError else
  let step_size_lr := step_size train_len (stop_lr_updates a) (total_updates a) in
  let step_size_nb := step_size train_len (stop_nb_updates a) (total_updates a) in
  let stop_lr := fmul (of_nat train_len) (stop_lr_updates a) in
  let lr_update_steps := update_steps step_size_lr stop_lr in
  let stop_nb := fmul (of_nat train_len) (stop_nb_updates a) in
  let nb_update_steps := update_steps step_size_nb stop_nb in
  s <- get_self ;;
  let map_radius := run_schedule (nbfunc s) (sigma s) 0 (length nb_update_steps) in
  let lr := run_schedule (lrfunc s) (learning_rate s) 0 (length lr_update_steps) in
  infl <- lift (_calculate_influence s map_radius) ;;
  c <- epochs (num_epochs a) d X nb_update_steps lr_update_steps batch_size
              (mk_counters 0 0 0 (scale lr infl)) ;;
  modify_self (set_trained true) ;;;
  modify_self (fun s => set_weights (inverse_transform (scaler s) (weights s)) s).

(** *** Predictor *)

(** [Som._predict_base]. *)
Definition _predict_base (X : ndarray F) (batch_size : nat) : M (matrix F) :=
  s <- get_self ;;
  lift (_check_input s X) ;;;
  batched <- _create_batches (shape1 X) (rows X) batch_size false ;;
  s <- get_self ;;
  let activations := concat (map (fun x => fst (forward s x)) batched) in
  let activations := firstn (shape0 X) activations in
  lift (reshape2 (shape0 X) (weight_dim s) (concat activations)).

(** [Som.predict]. *)
Definition predict (X : ndarray F) (batch_size : nat) : M (list nat) :=
  dist <- _predict_base X batch_size ;;
  s <- get_self ;;
  lift (mapM (bmu_of (min_max s)) dist).

(** [Som.quant_error]. *)
Definition quant_error (X : ndarray F) (batch_size : nat) : M (list F) :=
  dist <- _predict_base X batch_size ;;
  s <- get_self ;;
  lift (mapM (fun row => match min_max s row with
                         | Some (v, _) => inr v
                         | None => inl (ValueError "zero-size array to reduction operation")
                         end) dist).

(** *** map_weights *)

(** [a.transpose(1, 0, 2)] of an array whose axis 1 has length [m]. *)
Definition transpose_102 {A} (m : nat) (a : list (list (list A)))
  : list (list (list A)) :=
  map (fun j => map (fun r => nth j r []) a) (seq 0 m).

(** [Som.map_weights]. *)
Definition map_weights (s : Som) : result (list (matrix F)) :=
  match map_dimensions s with
  | [width; height] =>
      let w := inverse_transform (scaler s) (weights s) in
      match reshape2 (width * height) (data_dim s) (concat w) with
      | inl e => inl e
      | inr cells => inr (transpose_102 height (chunks width height cells))
      end
  | _ => inl (ValueError "wrong number of values to unpack")
  end.

(** *** Persistence *)

(** The JSON document of [save]. *)
Record document := mk_document {
  doc_weights : matrix F;
  doc_dimensions : list nat;
  doc_lrfunc : string;
  doc_nbfunc : string;
  doc_lr : F;
  doc_sigma : F
}.

(** The files written by [save], by path. *)
Definition files := string -> option document.

Definition write_file (path : string) (d : document) (fs : files) : files :=
  fun p => if String.eqb p path then Some d else fs p.

Definition schedule_tag (f : schedule) : string :=
  match f with
  | sched_expo => "expo"
  | _ => "linear"
  end.

(** [Som.save]. *)
Definition save (s : Som) (path : string) (fs : files) : files :=
  write_file path
    (mk_document (weights s) (map_dimensions s)
                 (schedule_tag (lrfunc s)) (schedule_tag (nbfunc s))
                 (learning_rate s) (sigma s)) fs.

Definition schedule_of_tag (t : string) : schedule :=
  if String.eqb t "expo" then sched_expo else sched_linear.

(** [Som.load]. *)
Definition load (path : string) (fs : files) : result Som :=
  match fs path with
  | None => inl FileNotFoundError
  | Some data =>
      let weights := doc_weights data in
      match weights with
      | [] => inl IndexError
      | r :: _ =>
          let datadim := length r in
          match Som_init (doc_dimensions data) datadim (doc_lr data)
                         (schedule_of_tag (doc_lrfunc data))
                         (schedule_of_tag (doc_nbfunc data))
                         (Some (doc_sigma data)) np_min with
          | inl e => inl e
          | inr s => inr (set_trained true (set_weights weights s))
          end
      end
  end.
End Model.

Arguments bvec F : clear implicits.
Arguments Scaler F : clear implicits.
Arguments schedule F : clear implicits.
Arguments extremum F : clear implicits.
Arguments Som F : clear implicits.
Arguments state F RNG : clear implicits.
Arguments M F RNG : clear implicits.
Arguments counters F : clear implicits.
Arguments fit_args F : clear implicits.
Arguments document F : clear implicits.
Arguments files F : clear implicits.

(** ** A concrete environment for runs on floats

    A linear congruential generator stands for the generator of the array
    module, PCA is unavailable, and the schedule functions are the usual
    exponential and linear decays. *)

Definition lcg_next (g : Z) : Z := ((1103515245 * g + 12345) mod 2147483648)%Z.

#[export] Instance lcg_env : Externals float Z := {
  random_seed := fun z => z;
  random_sample := fun g =>
    (PrimFloat.div (float_of_Z (lcg_next g)) (float_of_Z 2147483648), lcg_next g);
  random_interval := fun i g =>
    (Z.to_nat (lcg_next g mod (Z.of_nat i + 1)), lcg_next g);
  PCA_fit := fun _ g => (inl (ValueError "PCA unavailable"), g);
  expo := fun v c t =>
    PrimFloat.mul v (float_exp (PrimFloat.opp (PrimFloat.div (of_nat c) (of_nat t))));
  linear := fun v c t =>
    PrimFloat.div (PrimFloat.mul v (PrimFloat.sub (of_nat t) (of_nat c))) (of_nat t)
}.

(** A freshly constructed model, [Som(map_dim, data_dim, 0.25)], for
    dimensions whose product fits in int64 ([fresh_som_is_init]). *)
Definition fresh_som (map_dim : list nat) (data_dim : nat) (mm : extremum float)
  : Som float :=
  mk_Som (fadd (fdiv (of_nat (fold_right Nat.max 0 map_dim)) (of_Z 2)) (lit 1 100))
         (lit 1 4) map_dim (fold_left Nat.mul map_dim 1)
         (repeat (repeat f0 data_dim) (fold_left Nat.mul map_dim 1)) data_dim
         sched_expo sched_expo None mm false Scaler_init.

Definition fresh_state (s : Som float) : state float Z := mk_state s 0%Z 0%Z.

(** ** Notions the properties are stated with *)

Section Notions.
Context {F RNG : Type} {SF : Scalar F} {EF : Externals F RNG}.

(** The fields [fit] leaves alone. *)
Record hyper := mk_hyper {
  h_sigma : F;
  h_learning_rate : F;
  h_map_dimensions : list nat;
  h_weight_dim : nat;
  h_data_dim : nat;
  h_lrfunc : schedule F;
  h_nbfunc : schedule F;
  h_min_max : extremum F
}.

Definition hyper_of (s : Som F) : hyper :=
  mk_hyper (sigma s) (learning_rate s) (map_dimensions s) (weight_dim s)
           (data_dim s) (lrfunc s) (nbfunc s) (min_max s).

(** A computation keeps [I] on [self], however it ends. *)
Definition inv (I : Som F -> Prop) {A} (c : M F RNG A) : Prop :=
  forall st, I (self st) -> I (self (fst (c st))).

(** Entry (i, j) of the grid seen as unit_count by unit_count, the view
    [reshape(weight_dim, weight_dim)] that [_calculate_influence] takes. *)
Definition D (grid : list (matrix F)) (i j : nat) : F :=
  nth j (concat (nth i grid [])) f0.

(** Squared grid distance of units i and j, with row = index // height and
    col = index % height. *)
Definition sqdist (height i j : nat) : Z :=
  ((Z.of_nat (i / height) - Z.of_nat (j / height)) ^ 2
   + (Z.of_nat (i mod height) - Z.of_nat (j mod height)) ^ 2)%Z.

(** The activations of input row [x]: its distance to every unit. *)
Definition activation_row (W : matrix F) (x : list F) : list F :=
  map (fun w => norm (map2 fsub x w)) W.

(** The array [w] that [map_weights] reshapes (line 758). *)
Definition map_weights_source (s : Som F) : matrix F :=
  inverse_transform (scaler s) (weights s).

(** On a non-empty row the extremum exists, its index is within the row,
    and its value is the entry at that index. *)
Definition good_extremum (mm : extremum F) : Prop :=
  forall row, row <> [] ->
    exists v i, mm row = Some (v, i) /\ i < length row /\ nth i row f0 = v.

(** The pair an extremum function selects on a row (a default where it
    raises). *)
Definition selected (mm : extremum F) (row : list F) : F * nat :=
  match mm row with
  | Some p => p
  | None => (f0, 0)
  end.

(** If the computation raises, [I] is kept on [self]. *)
Definition on_raise (I : Som F -> Prop) {A} (c : M F RNG A) : Prop :=
  forall st, I (self st) ->
    match c st with
    | (st', inl _) => I (self st')
    | (_, inr _) => True
    end.

(** If the computation returns, [Q] holds of [self]. *)
Definition on_return (Q : Som F -> Prop) {A} (c : M F RNG A) : Prop :=
  forall st,
    match c st with
    | (st', inr _) => Q (self st')
    | (_, inl _) => True
    end.

(** From a state whose model satisfies [P] the computation returns, with a
    result and a model that satisfy [Q]. *)
Definition returns (P : Som F -> Prop) {A} (c : M F RNG A) (Q : A -> Som F -> Prop)
  : Prop :=
  forall st, P (self st) -> exists st' x, c st = (st', inr x) /\ Q x (self st').


(** The units [_apply_influences] selects for a batch. *)
Definition bmus (s : Som F) (x : matrix F) : list nat :=
  map (fun xb => snd (selected (min_max s) (activation_row (weights s) xb))) x.

(** Two states with the same model and, for [b = true], the same state of
    numpy's generator. *)
Definition alike (b : bool) (st1 st2 : state F RNG) : Prop :=
  self st1 = self st2 /\ (b = true -> np_random st1 = np_random st2).

(** From states alike at [b] the computation ends the same way on both: with
    the same exception and the same model, or with the same result in states
    alike at [b']. *)
Definition same_outcome (b b' : bool) {A} (c : M F RNG A) : Prop :=
  forall st1 st2, alike b st1 st2 ->
    match c st1, c st2 with
    | (s1, inr x1), (s2, inr x2) => x1 = x2 /\ alike b' s1 s2
    | (s1, inl e1), (s2, inl e2) => e1 = e2 /\ self s1 = self s2
    | _, _ => False
    end.


(** How many of the [k] batch indices from [i] on are in the set [steps]. *)
Definition scheduled (steps : list Z) (i k : nat) : nat :=
  length (filter (fun j => in_steps j steps) (seq i k)).

End Notions.

Arguments inv {F} RNG I {A} c.
Arguments returns {F} RNG P {A} c Q.
Arguments same_outcome F RNG b b' {A} c.

(** The scaled value of [x] in a feature of mean [m] and deviation [s]. *)
Definition scaled (m s x : R) : R := ((x - m) / (s + epsilon))%R.


(** ** Concrete inputs and models *)

(** A 1-D input. *)
Definition X_1d : ndarray float :=
  mk_ndarray numpy [3] [float_of_Z 1; float_of_Z 2; float_of_Z 3].

(** A 2-by-2 array on the accelerator. *)
Definition X_gpu : ndarray float :=
  of_rows cupy 2 [[float_of_Z 0; float_of_Z 0]; [float_of_Z 10; float_of_Z 10]].

(** A two-unit map on one feature, its weights set by hand. *)
Definition som_2x1 (mm : extremum float) : Som float :=
  set_weights [[float_of_Z 0]; [float_of_Z 1]] (fresh_som [1; 2] 1 mm).

Definition batch_2x1 : list (list float) := [[lit 1 4]; [float_of_Z 2]].

Definition influence_2x2 : list (list float) :=
  [[float_of_Z 1; lit 1 2]; [lit 1 2; float_of_Z 1]].

Definition X_3x1 : ndarray float :=
  of_rows numpy 1 [[lit 1 4]; [float_of_Z 2]; [lit 3 4]].

(** An empty 2-D array with one column, and a map without units. *)
Definition X_empty : ndarray float := mk_ndarray numpy [0; 1] [].
Definition X_1x1 : ndarray float := of_rows numpy 1 [[float_of_Z 1]].

(** Models trained by [fit] on four points of one feature, on a 1-by-2 map,
    with the default extremum function and with the arg-max variant. *)
Definition X_train : ndarray float :=
  of_rows numpy 1 [[float_of_Z 0]; [float_of_Z 1]; [float_of_Z 9]; [float_of_Z 10]].

Definition args_train : fit_args float :=
  mk_fit_args 2 false 50 (of_Z 1) (of_Z 1) 2 1.

Definition fit_min : state float Z * result unit :=
  fit X_train args_train (fresh_state (fresh_som [1; 2] 1 np_min)).

Definition fit_max : state float Z * result unit :=
  fit X_train args_train (fresh_state (fresh_som [1; 2] 1 np_max)).

Definition no_files : files float := fun _ => None.

(** The model read back from the document of [fit_max]. *)
Definition loaded_max : Som float :=
  match load "som.json" (save (self (fst fit_max)) "som.json" no_files) with
  | inr m' => m'
  | inl _ => self (fst fit_max)
  end.

(** A generator whose every draw is 1/2. *)
#[export] Instance half_env : Externals R unit := {
  random_seed := fun _ => tt;
  random_sample := fun g => ((1 / 2)%R, g);
  random_interval := fun i g => (i, g);
  PCA_fit := fun _ g => (inl (ValueError "PCA unavailable"), g);
  expo := fun v c t => (v * Rtrigo_def.exp (- (INR c / INR t)))%R;
  linear := fun v c t => (v * (INR t - INR c) / INR t)%R
}.

Definition X_real : list (list R) := [[0%R]; [1%R]].

Definition som_real : Som R :=
  mk_Som 1%R (1 / 4)%R [1; 2] 2 [[0%R]; [0%R]] 1 sched_expo sched_expo None
         np_min false Scaler_init.

(** A two-unit model over the reals with weights 1 and 3, the files after
    saving it, and the model read back. *)
Definition som_real_13 : Som R := set_weights [[1%R]; [3%R]] som_real.

Definition files_real : files R := save som_real_13 "som.json" (fun _ => None).

Definition loaded_real : Som R :=
  mk_Som 1%R (1 / 4)%R [1; 2] 2 [[1%R]; [3%R]] 1 sched_expo sched_expo None
         np_min true Scaler_init.

(** The distance grid of the 1-by-2 map, the model with it in place, and a
    symmetric influence with entries in [0, 1]. *)
Definition grid_real : list (list (list R)) := [[[0%R; 1%R]]; [[1%R; 0%R]]].

Definition som_real_grid : Som R := set_distance_grid (Some grid_real) som_real.

Definition influence_real : list (list R) :=
  [[1%R; (1 / 2)%R]; [(1 / 2)%R; 1%R]].

(** Four points on the accelerator, and one epoch in batches of one row. *)
Definition X_gpu_train : ndarray float :=
  of_rows cupy 1 [[float_of_Z 0]; [float_of_Z 1]; [float_of_Z 9]; [float_of_Z 10]].

Definition args_single : fit_args float :=
  mk_fit_args 1 false 50 (of_Z 1) (of_Z 1) 1 1.

(** One more epoch on the trained model, in batches of two rows, with a
    neighbourhood update at batch 1 and learning-rate updates at batches 0
    and 1. *)
Definition counters_0 : counters float := mk_counters 0 0 0 influence_2x2.

Definition epoch_run : state float Z * result (counters float) :=
  _epoch 1 (rows X_train) [1%Z] [0%Z; 1%Z] 2 counters_0 (fst fit_min).

Definition epoch_run_counters : counters float :=
  match snd epoch_run with
  | inr c => c
  | inl _ => counters_0
  end.

(** The arguments of [args_train] with a batch size of 0. *)
Definition args_zero_batch : fit_args float :=
  mk_fit_args 2 false 50 (of_Z 1) (of_Z 1) 0 1.

(** Seven rows of the constant 0.1, their scaled values, and the weights that
    [fit] seeds from them on a 1-by-2 map with seed 1. *)
Definition X_const : ndarray float := of_rows numpy 1 (repeat [lit 1 10] 7).

Definition X_const_scaled : list (list float) :=
  transform (Scaler_fit 1 (rows X_const)) (rows X_const).

Definition seeded_const : state float Z * result (list (list float)) :=
  random_weights numpy (fresh_som [1; 2] 1 np_min) 1 X_const_scaled
                 (mk_state (fresh_som [1; 2] 1 np_min) (random_seed 1) 0%Z).

Definition seeded_const_weights : list (list float) :=
  match snd seeded_const with
  | inr w => w
  | inl _ => []
  end.

(** * Properties *)

(** ** The unit count of the constructor *)

Section UnitCount.
Local Open Scope Z_scope.

Lemma int64_wrap_range (z : Z) : - 2 ^ 63 <= int64_wrap z < 2 ^ 63.
Proof.
unfold int64_wrap. pose proof (Z.mod_pos_bound (z + 2 ^ 63) (2 ^ 64) ltac:(lia)). lia.
Qed.

Lemma int64_wrap_mod (z : Z) : int64_wrap z mod 2 ^ 64 = z mod 2 ^ 64.
Proof.
unfold int64_wrap. rewrite Zminus_mod_idemp_l. f_equal. lia.
Qed.

Lemma int64_wrap_small (z : Z) : - 2 ^ 63 <= z < 2 ^ 63 -> int64_wrap z = z.
Proof.
intro H. unfold int64_wrap. rewrite Z.mod_small by lia. lia.
Qed.

Lemma fold_left_mul_acc (l : list nat) (a : nat) :
  fold_left Nat.mul l a = (a * fold_left Nat.mul l 1)%nat.
Proof.
revert a; induction l as [| n l IH]; intro a; simpl; [lia |].
rewrite (IH (a * n)%nat), (IH (n + 0)%nat). lia.
Qed.

Lemma unit_count_congr (l : list nat) (acc : Z) :
  fold_left (fun acc n => int64_wrap (acc * Z.of_nat n)) l acc mod 2 ^ 64
  = (acc * Z.of_nat (fold_left Nat.mul l 1%nat)) mod 2 ^ 64.
Proof.
revert acc; induction l as [| n l IH]; intro acc; simpl.
- f_equal. lia.
- rewrite IH. rewrite (fold_left_mul_acc l (n + 0)%nat).
  rewrite Zmult_mod, int64_wrap_mod, <- Zmult_mod. f_equal. lia.
Qed.

Lemma unit_count_range (l : list nat) : - 2 ^ 63 <= unit_count l < 2 ^ 63.
Proof.
unfold unit_count. destruct l as [| n l] using rev_ind; [simpl; lia |].
rewrite fold_left_app. simpl. apply int64_wrap_range.
Qed.

(** Without overflow the unit count is the product of the dimensions. *)
Lemma unit_count_product (l : list nat) :
  Z.of_nat (fold_left Nat.mul l 1%nat) < 2 ^ 63 ->
  unit_count l = Z.of_nat (fold_left Nat.mul l 1%nat).
Proof.
intro H. pose proof (unit_count_range l) as Hr.
pose proof (unit_count_congr l 1) as Hc. fold (unit_count l) in Hc.
rewrite Z.mul_1_l in Hc.
pose proof (Z.div_mod (unit_count l) (2 ^ 64) ltac:(lia)) as E1.
pose proof (Z.div_mod (Z.of_nat (fold_left Nat.mul l 1%nat)) (2 ^ 64) ltac:(lia)) as E2.
rewrite Hc in E1. nia.
Qed.
End UnitCount.

(** Seven rows of 7905747460161236407 units: the product is 3 * 2^64 + 1 and
    the constructor counts one unit. *)
Example unit_count_wraps : unit_count [7; Z.to_nat 7905747460161236407] = 1%Z.
Proof.
cbv beta iota delta [unit_count fold_left].
rewrite Z2Nat.id by (apply Z.leb_le; reflexivity).
vm_compute. reflexivity.
Qed.

(** [fresh_som] is what the constructor returns, as long as the product of
    the dimensions fits in int64. *)
Lemma fresh_som_is_init (n : nat) (dims : list nat) (d : nat) (mm : extremum float) :
  (Z.of_nat (fold_left Nat.mul (n :: dims) 1%nat) < 2 ^ 63)%Z ->
  Som_init (n :: dims) d (lit 1 4) sched_expo sched_expo None mm
  = inr (fresh_som (n :: dims) d mm).
Proof.
intro H. unfold Som_init. rewrite (unit_count_product _ H).
destruct (Z.ltb_spec (Z.of_nat (fold_left Nat.mul (n :: dims) 1)) 0) as [Hneg | _];
  [lia |].
rewrite Nat2Z.id. reflexivity.
Qed.

(** ** Invariants of the model object across a method call *)

Section Invariants.
Context {F RNG : Type} {SF : Scalar F} {EF : Externals F RNG}.
Variable I : Som F -> Prop.

Lemma inv_ret {A} (x : A) : inv RNG I (ret x).
Proof. intros st H; exact H. Qed.

Lemma inv_raise {A} (e : exn) : inv RNG I (@raise _ A e).
Proof. intros st H; exact H. Qed.

Lemma inv_lift {A} (r : result A) : inv RNG I (lift r).
Proof. intros st H; exact H. Qed.

Lemma inv_get_self : inv RNG I get_self.
Proof. intros st H; exact H. Qed.

Lemma inv_with_rng {A} xp (g : RNG -> A * RNG) : inv RNG I (with_rng xp g).
Proof.
intros st H; unfold with_rng.
destruct xp; [destruct (g (np_random st)) | destruct (g (cp_random st))];
  exact H.
Qed.

Lemma inv_bind {A B} (c : M F RNG A) (k : A -> M F RNG B) :
  inv RNG I c -> (forall x, inv RNG I (k x)) -> inv RNG I (bind c k).
Proof.
intros Hc Hk st H. unfold bind.
specialize (Hc st H). destruct (c st) as [st' [e | x]]; simpl in *.
- exact Hc.
- apply Hk, Hc.
Qed.

Lemma inv_modify (g : Som F -> Som F) :
  (forall s, I s -> I (g s)) -> inv RNG I (modify_self g).
Proof. intros Hg st H; simpl. apply Hg, H. Qed.

Lemma inv_if {A} (b : bool) (c1 c2 : M F RNG A) :
  inv RNG I c1 -> inv RNG I c2 -> inv RNG I (if b then c1 else c2).
Proof. destruct b; auto. Qed.

Lemma inv_shuffle (X : matrix F) : inv RNG I (shuffle X).
Proof. apply inv_with_rng. Qed.

Lemma inv_create_batches d (X : matrix F) bs sh : inv RNG I (_create_batches d X bs sh).
Proof.
unfold _create_batches. apply inv_bind.
- destruct sh; [apply inv_shuffle | apply inv_ret].
- intro. apply inv_if; [apply inv_raise | apply inv_ret].
Qed.

(** The training loop writes [self] only through the update of [backward]. *)
Hypothesis I_update :
  forall s update, I s -> I (set_weights (iadd_mean (weights s) update) s).

Lemma inv_backward (diff : list (matrix F)) infl act : inv RNG I (backward diff infl act).
Proof.
unfold backward. apply inv_bind; [apply inv_get_self | intro].
apply inv_bind; [apply inv_lift | intro].
apply inv_modify. intros; now apply I_update.
Qed.

Lemma inv_propagate (x infl : matrix F) : inv RNG I (_propagate x infl).
Proof.
unfold _propagate. apply inv_bind; [apply inv_get_self | intro s].
destruct (forward s x). apply inv_bind; [apply inv_backward | intro].
apply inv_ret.
Qed.

Lemma inv_epoch_loop (X : list (matrix F)) data_len bs nb lr np l c :
  inv RNG I (epoch_loop X data_len bs nb lr np l c).
Proof.
revert np l c; induction X as [| x X IH]; intros np l c; simpl.
- apply inv_ret.
- apply inv_bind; [apply inv_propagate | intro].
  apply inv_bind; [apply inv_get_self | intro s].
  apply inv_bind.
  + apply inv_if; [| apply inv_ret].
    apply inv_bind; [apply inv_lift | intro; apply inv_ret].
  + intro c1. destruct (in_steps (idx c) lr); apply IH.
Qed.

Lemma inv_epoch d (X : matrix F) nb lr bs c : inv RNG I (_epoch d X nb lr bs c).
Proof.
unfold _epoch. apply inv_bind; [apply inv_create_batches | intro].
apply inv_bind; [apply inv_get_self | intro]. apply inv_epoch_loop.
Qed.

Lemma inv_epochs n d (X : matrix F) nb lr bs c : inv RNG I (epochs n d X nb lr bs c).
Proof.
revert c; induction n as [| n IH]; intro c; simpl.
- apply inv_ret.
- apply inv_bind; [apply inv_epoch | intro; apply IH].
Qed.

Lemma inv_pca_weights s d (X : matrix F) : inv RNG I (pca_weights s d X).
Proof.
unfold pca_weights. destruct (nth_error (map_dimensions s) 1); [| apply inv_raise].
apply inv_bind; [apply inv_with_rng | intros [e | [eigvec eigval]]];
  [apply inv_raise | apply inv_ret].
Qed.

Lemma inv_random_weights xp s d (X : matrix F) : inv RNG I (random_weights xp s d X).
Proof.
unfold random_weights. apply inv_if; [apply inv_raise |].
apply inv_bind; [apply inv_with_rng | intro; apply inv_ret].
Qed.
End Invariants.

Create HintDb inv.
#[export] Hint Resolve inv_ret inv_raise inv_lift inv_get_self inv_with_rng
  inv_create_batches inv_pca_weights inv_random_weights : inv.

(** One step through a method body; [leaf] closes what is asked of [I] at
    an assignment to [self]. *)
Ltac inv_step leaf :=
  lazymatch goal with
  | |- inv _ _ (bind _ _) => apply inv_bind; [| intro]
  | |- inv _ _ (if _ then _ else _) => apply inv_if
  | |- inv _ _ (modify_self _) => apply inv_modify; leaf
  | |- inv _ _ (epochs _ _ _ _ _ _ _) => apply inv_epochs; leaf
  | |- inv _ _ _ => solve [auto with inv]
  end.

(** ** Frame of [fit]: the hyperparameters are never written *)

Section Frame.
Context {F RNG : Type} {SF : Scalar F} {EF : Externals F RNG}.

Lemma keeps_fit (X : ndarray F) (a : fit_args F) (h : hyper) :
  inv RNG (fun s => hyper_of s = h) (fit X a).
Proof.
unfold fit; repeat inv_step ltac:(intros; assumption).
Qed.

(** C10. Every [fit] call, whether it returns or raises, leaves sigma,
    learning_rate, map_dimensions, weight_dim, data_dim, lrfunc, nbfunc and
    min_max as they were: the decayed radius and rate are locals of the run.
    Only weights, scaler, distance_grid and trained can differ, and a [save]
    after [fit] writes the sigma and learning rate the model started with. *)
Theorem fit_frame (X : ndarray F) (a : fit_args F) (st : state F RNG) :
  sigma (self (fst (fit X a st))) = sigma (self st)
  /\ learning_rate (self (fst (fit X a st))) = learning_rate (self st)
  /\ map_dimensions (self (fst (fit X a st))) = map_dimensions (self st)
  /\ weight_dim (self (fst (fit X a st))) = weight_dim (self st)
  /\ data_dim (self (fst (fit X a st))) = data_dim (self st)
  /\ lrfunc (self (fst (fit X a st))) = lrfunc (self st)
  /\ nbfunc (self (fst (fit X a st))) = nbfunc (self st)
  /\ min_max (self (fst (fit X a st))) = min_max (self st)
  /\ self (fst (fit X a st)) =
       set_trained (trained (self (fst (fit X a st))))
         (set_distance_grid (distance_grid (self (fst (fit X a st))))
            (set_scaler (scaler (self (fst (fit X a st))))
               (set_weights (weights (self (fst (fit X a st)))) (self st))))
  /\ (forall path fs,
        option_map (fun d => (doc_sigma d, doc_lr d))
                   (save (self (fst (fit X a st))) path fs path)
        = Some (sigma (self st), learning_rate (self st))).
Proof.
pose proof (keeps_fit X a (h := hyper_of (self st)) st eq_refl) as H.
cbv beta in H. revert H.
generalize (self (fst (fit X a st))) as s'. generalize (self st) as s.
intros [sg0 lr0 md0 wd0 w0 dd0 lf0 nf0 dg0 mm0 tr0 sc0]
       [sg lr md wd w dd lf nf dg mm tr sc] H.
unfold hyper_of in H; cbn in H. injection H as -> -> -> -> -> -> -> ->.
cbn. repeat split.
intros path fs. unfold save, write_file. rewrite String.eqb_refl. reflexivity.
Qed.
End Frame.

(** ** Errors of [fit] *)

Section FitErrors.
Context {F RNG : Type} {SF : Scalar F} {EF : Externals F RNG}.

Lemma check_input_ok (s : Som F) (X : ndarray F) :
  ndim X = 2 -> shape1 X = data_dim s -> _check_input s X = inr tt.
Proof.
intros H2 Hd. unfold _check_input.
rewrite H2, Hd, !Nat.eqb_refl. reflexivity.
Qed.

Lemma check_input_error (s : Som F) (X : ndarray F) :
  ndim X <> 2 \/ shape1 X <> data_dim s ->
  exists msg, _check_input s X = inl (ValueError msg).
Proof.
intros H. unfold _check_input.
destruct (ndim X =? 2) eqn:E2; simpl; [| eauto].
destruct (shape1 X =? data_dim s) eqn:Ed; simpl; [| eauto].
apply Nat.eqb_eq in E2, Ed. tauto.
Qed.

(** C7. An input that is not 2-D, or whose second dimension is not
    data_dim, makes [fit] raise a ValueError with the whole state as it was:
    weights, scaler and distance grid are untouched and an untrained model
    stays untrained. *)
Theorem fit_shape_error (X : ndarray F) (a : fit_args F) (st : state F RNG) :
  ndim X <> 2 \/ shape1 X <> data_dim (self st) ->
  (exists msg, fit X a st = (st, inl (ValueError msg)))
  /\ weights (self (fst (fit X a st))) = weights (self st)
  /\ scaler (self (fst (fit X a st))) = scaler (self st)
  /\ distance_grid (self (fst (fit X a st))) = distance_grid (self st)
  /\ (trained (self st) = false -> trained (self (fst (fit X a st))) = false).
Proof.
intros H. destruct (check_input_error (self st) X H) as [msg Hmsg].
assert (E : fit X a st = (st, inl (ValueError msg))).
{ unfold fit, bind, get_self, lift. rewrite Hmsg. reflexivity. }
rewrite E. simpl. repeat split; eauto.
Qed.

End FitErrors.

Lemma fit_shape_error_witness :
  (exists msg, fit X_1d default_fit_args (fresh_state (fresh_som [2; 2] 2 np_min))
               = (fresh_state (fresh_som [2; 2] 2 np_min), inl (ValueError msg)))
  /\ weights (self (fst (fit X_1d default_fit_args
                             (fresh_state (fresh_som [2; 2] 2 np_min)))))
     = weights (fresh_som [2; 2] 2 np_min)
  /\ scaler (self (fst (fit X_1d default_fit_args
                            (fresh_state (fresh_som [2; 2] 2 np_min)))))
     = scaler (fresh_som [2; 2] 2 np_min)
  /\ distance_grid (self (fst (fit X_1d default_fit_args
                                   (fresh_state (fresh_som [2; 2] 2 np_min)))))
     = distance_grid (fresh_som [2; 2] 2 np_min)
  /\ (trained (fresh_som [2; 2] 2 np_min) = false ->
      trained (self (fst (fit X_1d default_fit_args
                              (fresh_state (fresh_som [2; 2] 2 np_min))))) = false).
Proof.
apply (fit_shape_error X_1d default_fit_args
         (fresh_state (fresh_som [2; 2] 2 np_min))).
left. vm_compute. lia.
Defined.



(** ** Facts on the list helpers *)

Section ListFacts.
Context {A B C : Type}.

Lemma length_imap_from (f : nat -> A -> B) (l : list A) (i : nat) :
  length (imap_from i f l) = length l.
Proof. revert i; induction l; intro i; simpl; auto. Qed.

Lemma length_imap (f : nat -> A -> B) (l : list A) : length (imap f l) = length l.
Proof. apply length_imap_from. Qed.

Lemma nth_imap_from (f : nat -> A -> B) (l : list A) (i k : nat) (da : A) (db : B) :
  k < length l -> nth k (imap_from i f l) db = f (i + k) (nth k l da).
Proof.
revert i k; induction l as [| x l IH]; intros i k Hk; simpl in *; [lia |].
destruct k as [| k].
- now rewrite Nat.add_0_r.
- rewrite IH by lia. now rewrite Nat.add_succ_r.
Qed.

Lemma nth_imap (f : nat -> A -> B) (l : list A) (k : nat) (da : A) (db : B) :
  k < length l -> nth k (imap f l) db = f k (nth k l da).
Proof. intro Hk. unfold imap. now rewrite (nth_imap_from f l 0 da db Hk). Qed.

Lemma length_map2 (f : A -> B -> C) (l : list A) (l' : list B) :
  length (map2 f l l') = Nat.min (length l) (length l').
Proof. unfold map2. now rewrite length_map, length_combine. Qed.

Lemma nth_map2 (f : A -> B -> C) (l : list A) (l' : list B) k da db dc :
  k < length l -> k < length l' ->
  nth k (map2 f l l') dc = f (nth k l da) (nth k l' db).
Proof.
unfold map2. revert l' k; induction l as [| x l IH]; intros l' k H1 H2; simpl in *; [lia |].
destruct l' as [| y l']; simpl in *; [lia |].
destruct k as [| k]; [reflexivity |]. apply IH; lia.
Qed.

Lemma length_chunks (n m : nat) (l : list A) : length (chunks n m l) = n.
Proof. revert l; induction n; intro l; simpl; auto. Qed.

Lemma chunks_concat (a : list (list A)) (m : nat) :
  Forall (fun r => length r = m) a -> chunks (length a) m (concat a) = a.
Proof.
induction 1 as [| r a Hr Ha IH]; simpl; [reflexivity |].
rewrite firstn_app, skipn_app, Hr, Nat.sub_diag, firstn_all2, skipn_all2 by lia.
simpl. rewrite app_nil_r, IH. reflexivity.
Qed.

Lemma length_concat_rect (a : list (list A)) (m : nat) :
  Forall (fun r => length r = m) a -> length (concat a) = length a * m.
Proof.
induction 1 as [| r a Hr Ha IH]; simpl; [reflexivity |].
rewrite length_app, IH, Hr. reflexivity.
Qed.

Lemma chunks_rect (n m : nat) (l : list A) :
  length l = n * m -> Forall (fun r => length r = m) (chunks n m l).
Proof.
revert l; induction n as [| n IH]; intros l Hl; simpl; constructor.
- rewrite length_firstn. simpl in Hl. lia.
- apply IH. rewrite length_skipn. simpl in Hl. lia.
Qed.

Lemma reshape2_concat (a : list (list A)) (m : nat) :
  Forall (fun r => length r = m) a -> reshape2 (length a) m (concat a) = inr a.
Proof.
intro H. unfold reshape2.
rewrite (length_concat_rect H), Nat.eqb_refl, (chunks_concat H). reflexivity.
Qed.

(** Row-major indexing of a flattened rectangular array. *)
Lemma nth_concat_rect (a : list (list A)) (m j : nat) (d : A) :
  Forall (fun r => length r = m) a -> j < length a * m ->
  nth j (concat a) d = nth (j mod m) (nth (j / m) a []) d.
Proof.
intros H; revert j; induction H as [| r a Hr Ha IH]; intros j Hj; simpl in *; [lia |].
assert (Hm : m <> 0) by (intro; subst m; lia).
destruct (Nat.lt_ge_cases j m) as [Hlt | Hge].
- rewrite app_nth1 by lia.
  rewrite Nat.div_small, Nat.mod_small by lia. reflexivity.
- rewrite app_nth2 by lia. rewrite IH by lia. rewrite Hr.
  replace j with ((j - m) + 1 * m) at 3 4 by lia.
  rewrite Nat.div_add, Nat.Div0.mod_add by lia.
  replace ((j - m) / m + 1) with (S ((j - m) / m)) by lia. reflexivity.
Qed.

Lemma nth_map_seq (f : nat -> A) (n k : nat) (d : A) :
  k < n -> nth k (map f (seq 0 n)) d = f k.
Proof.
intro Hk. rewrite (nth_indep _ d (f 0)) by (rewrite length_map, length_seq; lia).
rewrite map_nth, seq_nth by lia. reflexivity.
Qed.

Lemma nth_map_lt (h : A -> B) (l : list A) (k : nat) (da : A) (db : B) :
  k < length l -> nth k (map h l) db = h (nth k l da).
Proof.
intro Hk. rewrite (nth_indep _ db (h da)) by now rewrite length_map.
apply map_nth.
Qed.

Lemma mapM_inr (f : A -> result B) (g : A -> B) (l : list A) :
  (forall x, In x l -> f x = inr (g x)) -> mapM f l = inr (map g l).
Proof.
induction l as [| x l IH]; intro H; simpl; [reflexivity |].
rewrite (H x) by (now left). rewrite IH by (intros; apply H; now right).
reflexivity.
Qed.
End ListFacts.

(** ** The backward pass *)

Section Backward.
Context {F RNG : Type} {SF : Scalar F} {EF : Externals F RNG}.

Lemma mapM_length {A B} (f : A -> result B) (l : list A) (r : list B) :
  mapM f l = inr r -> length r = length l.
Proof.
revert r; induction l as [| x l IH]; intros r H; simpl in H.
- injection H as <-. reflexivity.
- destruct (f x); [discriminate |]. destruct (mapM f l); [discriminate |].
  injection H as <-. simpl. f_equal. now apply IH.
Qed.

Lemma mapM_nth {A B} (f : A -> result B) (l : list A) (r : list B) k da db :
  mapM f l = inr r -> k < length l -> f (nth k l da) = inr (nth k r db).
Proof.
revert r k; induction l as [| x l IH]; intros r k H Hk; simpl in *; [lia |].
destruct (f x) eqn:Ex; [discriminate |]. destruct (mapM f l); [discriminate |].
injection H as <-. destruct k as [| k]; simpl; [assumption |].
apply IH; [reflexivity | lia].
Qed.

Lemma gather_ok (infl : matrix F) (bmu : list nat) :
  Forall (fun k => k < length infl) bmu ->
  gather infl bmu = inr (map (fun k => nth k infl []) bmu).
Proof.
intro H. unfold gather. apply mapM_inr. intros k Hk.
rewrite Forall_forall in H. specialize (H k Hk).
destruct (nth_error infl k) eqn:E.
- now rewrite (nth_error_nth _ _ _ E).
- apply nth_error_None in E. lia.
Qed.

Lemma map_as_seq {A B} (g : A -> B) (l : list A) (d : A) :
  map g l = map (fun b => g (nth b l d)) (seq 0 (length l)).
Proof.
induction l as [| x l IH]; simpl; [reflexivity |].
f_equal. rewrite IH at 1. rewrite <- seq_shift, map_map. reflexivity.
Qed.

(** Entry (b, u, f) of [_calculate_update]. *)
Lemma calculate_update_nth (x : list (matrix F)) (influence : matrix F) b u f :
  b < length x -> b < length influence ->
  u < length (nth b x []) -> u < length (nth b influence []) ->
  f < length (nth u (nth b x []) []) ->
  nth f (nth u (nth b (_calculate_update x influence) []) []) f0 =
  fmul (nth f (nth u (nth b x []) []) f0) (nth u (nth b influence []) f0).
Proof.
intros Hb Hb' Hu Hu' Hf. unfold _calculate_update.
rewrite (nth_map2 _ x influence [] [] [] Hb Hb').
rewrite (nth_map2 _ _ _ [] f0 [] Hu Hu').
rewrite (nth_indep _ f0 (fmul f0 (nth u (nth b influence []) f0)))
  by now rewrite length_map.
rewrite (map_nth (fun v => fmul v (nth u (nth b influence []) f0))).
reflexivity.
Qed.

(** C1. A backward pass whose BMU selection succeeds changes nothing but
    the weights, and the new weight (u, f) is the old one plus the mean over
    the batch of diff(b, u, f) * I(bmu(b), u), where bmu(b) is what the
    model's extremum function selects on row b of the activations. *)
Theorem backward_update (diff : list (matrix F)) (infl act : matrix F)
        (st : state F RNG) (bmu : list nat) (U d : nat) :
  mapM (bmu_of (min_max (self st))) act = inr bmu ->
  Forall (fun k => k < length infl) bmu ->
  length diff = length act ->
  Forall (rect U d) diff ->
  Forall (fun r => length r = U) infl ->
  rect U d (weights (self st)) ->
  exists W',
    backward diff infl act st =
      (mk_state (set_weights W' (self st)) (np_random st) (cp_random st), inr tt)
    /\ rect U d W'
    /\ forall u f, u < U -> f < d ->
         nth f (nth u W' []) f0 =
         fadd (nth f (nth u (weights (self st)) []) f0)
              (fdiv (fsum (map (fun b =>
                             fmul (nth f (nth u (nth b diff []) []) f0)
                                  (nth u (nth (nth b bmu 0) infl []) f0))
                           (seq 0 (length diff))))
                    (of_nat (length diff))).
Proof.
intros Hbmu Hin Hlen Hdiff Hinfl [HWl HWr].
set (influence := map (fun k => nth k infl []) bmu).
set (update := _calculate_update diff influence).
exists (iadd_mean (weights (self st)) update).
assert (Hlb : length bmu = length diff)
  by (rewrite (mapM_length _ _ Hbmu); congruence).
assert (Hli : length influence = length diff)
  by (unfold influence; now rewrite length_map).
assert (Hlu : length update = length diff).
{ unfold update, _calculate_update. rewrite length_map2, Hli. apply Nat.min_id. }
split; [| split].
- unfold backward, bind, get_self, lift, modify_self, _apply_influences.
  rewrite Hbmu, (gather_ok infl Hin). reflexivity.
- split.
  + unfold iadd_mean. now rewrite length_imap.
  + unfold iadd_mean, imap at 1. clear HWl. generalize 0.
    induction HWr as [| r W Hr _ IH]; intro i; simpl; constructor.
    * now rewrite length_imap.
    * apply IH.
- intros u f Hu Hf.
  assert (Hrow : length (nth u (weights (self st)) []) = d).
  { rewrite Forall_forall in HWr. apply HWr, nth_In. lia. }
  unfold iadd_mean.
  rewrite (nth_imap _ (weights (self st)) [] [] (k := u)) by lia.
  rewrite (nth_imap _ _ f0 f0 (k := f)) by lia.
  f_equal. unfold mean_axis0, mean. rewrite length_map, Hlu. f_equal. f_equal.
  rewrite (map_as_seq _ update []), Hlu.
  apply map_ext_in. intros b Hb. apply in_seq in Hb.
  assert (Hdb : rect U d (nth b diff [])).
  { rewrite Forall_forall in Hdiff. apply Hdiff, nth_In. lia. }
  destruct Hdb as [Hdl Hdr].
  assert (Hib : nth b influence [] = nth (nth b bmu 0) infl []).
  { unfold influence.
    rewrite (nth_indep _ [] ((fun k => nth k infl []) 0)) by (rewrite length_map; lia).
    now rewrite (map_nth (fun k => nth k infl [])). }
  assert (Hil : length (nth b influence []) = U).
  { rewrite Hib. rewrite Forall_forall in Hinfl. apply Hinfl, nth_In.
    rewrite Forall_forall in Hin. apply Hin, nth_In. lia. }
  unfold update. rewrite calculate_update_nth; try lia.
  + now rewrite Hib.
  + rewrite Forall_forall in Hdr. rewrite (Hdr (nth u (nth b diff []) [])); [lia |].
    apply nth_In. lia.
Qed.
End Backward.

Ltac shape_tac :=
  repeat first [ split | constructor ]; simpl; try lia; try reflexivity.

Lemma backward_update_witness :
  exists W',
    backward (snd (forward (som_2x1 np_min) batch_2x1)) influence_2x2
             (fst (forward (som_2x1 np_min) batch_2x1))
             (fresh_state (som_2x1 np_min)) =
      (mk_state (set_weights W' (som_2x1 np_min)) 0%Z 0%Z, inr tt)
    /\ rect 2 1 W'
    /\ forall u f, u < 2 -> f < 1 ->
         nth f (nth u W' []) f0 =
         fadd (nth f (nth u (weights (som_2x1 np_min)) []) f0)
              (fdiv (fsum (map (fun b =>
                             fmul (nth f (nth u (nth b
                                     (snd (forward (som_2x1 np_min) batch_2x1))
                                     []) []) f0)
                                  (nth u (nth (nth b [0; 1] 0) influence_2x2 []) f0))
                           (seq 0 (length (snd (forward (som_2x1 np_min) batch_2x1))))))
                    (of_nat (length (snd (forward (som_2x1 np_min) batch_2x1))))).
Proof.
apply (backward_update (diff := snd (forward (som_2x1 np_min) batch_2x1))
         (infl := influence_2x2) (fst (forward (som_2x1 np_min) batch_2x1))
         (fresh_state (som_2x1 np_min)) (bmu := [0; 1]) (U := 2) (d := 1)).
- vm_compute. reflexivity.
- shape_tac.
- reflexivity.
- shape_tac.
- shape_tac.
- shape_tac.
Defined.

(** ** The predictor *)

Section Predict.
Context {F RNG : Type} {SF : Scalar F} {EF : Externals F RNG}.

Lemma concat_chunks {A} (n m : nat) (l : list A) :
  length l = n * m -> concat (chunks n m l) = l.
Proof.
revert l; induction n as [| n IH]; intros l Hl; simpl in *.
- destruct l; [reflexivity | discriminate].
- rewrite IH by (rewrite length_skipn; lia). apply firstn_skipn.
Qed.

Lemma ceil_div_covers (n m : nat) : 1 <= m -> n <= ceil_div n m * m.
Proof.
intro Hm. unfold ceil_div.
pose proof (Nat.div_mod_eq (n + m - 1) m) as E.
pose proof (Nat.mod_upper_bound (n + m - 1) m) as Hr. nia.
Qed.

Lemma forward_activations (s : Som F) (x : matrix F) :
  fst (forward s x) = map (activation_row (weights s)) x.
Proof.
unfold forward, distance_function, _distance_difference, activation_row. simpl.
rewrite map_map. apply map_ext; intro xb. now rewrite map_map.
Qed.

(** Batching, forwarding and truncating gives one activation row per input
    row, whatever the batch size. *)
Lemma batched_activations (s : Som F) (X : matrix F) (m bs d : nat) :
  length X <= m * bs ->
  firstn (length X) (concat (map (fun x => fst (forward s x)) (resize X m bs d)))
  = map (activation_row (weights s)) X.
Proof.
intro Hle.
rewrite (map_ext _ _ (forward_activations s)).
rewrite <- concat_map. unfold resize.
rewrite concat_chunks by (rewrite length_app, repeat_length; lia).
rewrite map_app, firstn_app, length_map, Nat.sub_diag. simpl.
rewrite app_nil_r. apply firstn_all2. now rewrite length_map.
Qed.

Lemma create_batches_unshuffled (d : nat) (X : matrix F) (bs : nat) (st : state F RNG) :
  1 <= length X -> 1 <= bs ->
  exists b, 1 <= b /\
    _create_batches d X bs false st
    = (st, inr (resize X (ceil_div (length X) b) b d)).
Proof.
intros Hn Hbs. exists (if length X <? bs then length X else bs).
split; [destruct (length X <? bs); lia |].
unfold _create_batches, bind, ret.
destruct (Nat.eqb_spec (if length X <? bs then length X else bs) 0) as [E | _];
  [destruct (length X <? bs); lia | reflexivity].
Qed.

Lemma predict_base_ok (X : ndarray F) (bs : nat) (st : state F RNG) :
  ndim X = 2 -> shape1 X = data_dim (self st) ->
  1 <= shape0 X -> 1 <= bs ->
  length (weights (self st)) = weight_dim (self st) ->
  _predict_base X bs st =
    (st, inr (map (activation_row (weights (self st))) (rows X))).
Proof.
intros H2 Hd Hn Hbs HW.
assert (Hrows : length (rows X) = shape0 X) by apply length_chunks.
destruct (@create_batches_unshuffled (shape1 X) (rows X) bs st) as [b [Hb Hcb]];
  [lia | lia |].
unfold _predict_base, bind, get_self, lift.
rewrite (check_input_ok _ _ H2 Hd), Hcb.
rewrite <- !Hrows.
rewrite batched_activations by (now apply ceil_div_covers).
rewrite <- (length_map (activation_row (weights (self st))) (rows X)), <- HW.
rewrite reshape2_concat; [reflexivity |].
apply Forall_forall. intros r Hr. apply in_map_iff in Hr as [x [<- _]].
unfold activation_row. now rewrite length_map.
Qed.

Lemma mapM_total {A B} (f : A -> result B) (l : list A) :
  (forall x, In x l -> exists y, f x = inr y) -> exists r, mapM f l = inr r.
Proof.
induction l as [| x l IH]; intro H; simpl; [eauto |].
destruct (H x (or_introl eq_refl)) as [y ->].
destruct IH as [r ->]; [intros; apply H; now right | eauto].
Qed.

(** C2 (as the code has it). On a non-empty 2-D input with data_dim
    columns, with a batch size of at least 1 and an extremum function that is
    defined on every row of unit_count activations, [predict] returns one
    unit index per input row, the i-th being what the extremum function
    selects among the distances of row i to the weight rows; the state, and
    so the weight matrix, is untouched, and the result is the same for every
    batch size. *)
Theorem predict_spec (X : ndarray F) (bs : nat) (st : state F RNG) :
  ndim X = 2 -> shape1 X = data_dim (self st) ->
  1 <= shape0 X -> 1 <= bs ->
  length (weights (self st)) = weight_dim (self st) ->
  (forall row, length row = weight_dim (self st) -> min_max (self st) row <> None) ->
  exists res,
    predict X bs st = (st, inr res)
    /\ length res = shape0 X
    /\ (forall i, i < shape0 X ->
          bmu_of (min_max (self st))
                 (activation_row (weights (self st)) (nth i (rows X) []))
          = inr (nth i res 0))
    /\ (forall bs', 1 <= bs' -> predict X bs' st = predict X bs st).
Proof.
intros H2 Hd Hn Hbs HW Hmm.
set (dist := map (activation_row (weights (self st))) (rows X)).
assert (Hrows : length (rows X) = shape0 X) by apply length_chunks.
destruct (@mapM_total _ _ (bmu_of (min_max (self st))) dist) as [res Hres].
{ intros row Hrow. apply in_map_iff in Hrow as [x [<- _]].
  unfold bmu_of. specialize (Hmm (activation_row (weights (self st)) x)).
  destruct (min_max (self st) (activation_row (weights (self st)) x)) as [[v i] |].
  - eauto.
  - exfalso. apply Hmm; [| reflexivity].
    unfold activation_row. now rewrite length_map. }
assert (Hp : forall b, 1 <= b -> predict X b st = (st, inr res)).
{ intros b Hb. unfold predict, bind.
  rewrite (@predict_base_ok X b st H2 Hd Hn Hb HW). unfold get_self, lift.
  fold dist. now rewrite Hres. }
exists res. split; [now apply Hp |]. split; [| split].
- rewrite (mapM_length _ _ Hres). unfold dist. now rewrite length_map.
- intros i Hi.
  assert (Hlt : i < length dist) by (unfold dist; rewrite length_map; lia).
  rewrite <- (@mapM_nth _ _ (bmu_of (min_max (self st))) dist res i [] 0 Hres Hlt).
  unfold dist. f_equal.
  rewrite (nth_indep (map (activation_row (weights (self st))) (rows X)) []
             (activation_row (weights (self st)) [])) by exact Hlt.
  symmetry. apply (map_nth (activation_row (weights (self st)))).
- intros bs' Hbs'. now rewrite !Hp.
Qed.
End Predict.

Example predict_3x1 :
  predict X_3x1 2 (fresh_state (som_2x1 np_min))
  = (fresh_state (som_2x1 np_min), inr [0; 1; 1]).
Proof. vm_compute. reflexivity. Qed.

Lemma predict_spec_witness :
  exists res,
    predict X_3x1 2 (fresh_state (som_2x1 np_min))
    = (fresh_state (som_2x1 np_min), inr res)
    /\ length res = shape0 X_3x1
    /\ (forall i, i < shape0 X_3x1 ->
          bmu_of (min_max (self (fresh_state (som_2x1 np_min))))
                 (activation_row (weights (self (fresh_state (som_2x1 np_min))))
                                 (nth i (rows X_3x1) []))
          = inr (nth i res 0))
    /\ (forall bs', 1 <= bs' ->
          predict X_3x1 bs' (fresh_state (som_2x1 np_min))
          = predict X_3x1 2 (fresh_state (som_2x1 np_min))).
Proof.
apply (predict_spec X_3x1 (bs := 2) (fresh_state (som_2x1 np_min)));
  try reflexivity; try (vm_compute; lia).
intros [| x row] Hrow; simpl; [discriminate Hrow | discriminate].
Defined.

(** C2 as stated fails on an empty input, which passes the shape check:
    the batch size is capped at 0 rows and the batch count divides by it.
    (And on a map of zero units the extremum of an empty row raises.) *)
Lemma predict_empty_input_raises :
  ndim X_empty = 2
  /\ shape1 X_empty = data_dim (som_2x1 np_min)
  /\ shape0 X_empty = 0
  /\ predict X_empty 100 (fresh_state (som_2x1 np_min))
     = (fresh_state (som_2x1 np_min), inl ZeroDivisionError)
  /\ predict X_1x1 100 (fresh_state (fresh_som [0; 2] 1 np_min))
     = (fresh_state (fresh_som [0; 2] 1 np_min),
        inl (ValueError "zero-size array to reduction operation")).
Proof. vm_compute. repeat split; reflexivity. Qed.

(** ** Persistence *)

Section Persistence.
Context {F RNG : Type} {SF : Scalar F} {EF : Externals F RNG}.

(** What [predict] returns depends on the model only through data_dim,
    weights, weight_dim and min_max. *)
Lemma predict_depends (s s' : Som F) (X : ndarray F) (bs : nat) (g1 g2 g1' g2' : RNG) :
  data_dim s' = data_dim s -> weights s' = weights s ->
  weight_dim s' = weight_dim s -> min_max s' = min_max s ->
  snd (predict X bs (mk_state s' g1' g2')) = snd (predict X bs (mk_state s g1 g2)).
Proof.
intros Hd Hw Hwd Hmm.
unfold predict, _predict_base, bind, get_self, lift, _create_batches, ret, raise,
  _check_input, forward.
cbn [self fst snd]. rewrite Hd.
destruct (negb (ndim X =? 2)); [reflexivity |].
destruct (negb (shape1 X =? data_dim s)); [reflexivity |].
unfold bind.
destruct ((if length (rows X) <? bs then length (rows X) else bs) =? 0);
  [reflexivity |].
cbn [self fst snd]. rewrite Hw, Hwd, Hmm.
destruct (reshape2 _ _ _); reflexivity.
Qed.

Lemma schedule_tag_roundtrip (f : schedule F) :
  schedule_tag (schedule_of_tag (schedule_tag f) : schedule F) = schedule_tag f.
Proof. destruct f; reflexivity. Qed.

(** What [load] makes of the document that [save] wrote for a model with at
    least one weight row, where the constructor accepts the unit count. *)
Lemma load_save_inr (m : Som F) (path : string) (fs : files F) (r : list F)
      (W : matrix F) :
  weights m = r :: W -> (0 <= unit_count (map_dimensions m))%Z ->
  load path (save m path fs)
  = inr (mk_Som (sigma m) (learning_rate m) (map_dimensions m)
                (Z.to_nat (unit_count (map_dimensions m))) (r :: W) (length r)
                (schedule_of_tag (schedule_tag (lrfunc m)))
                (schedule_of_tag (schedule_tag (nbfunc m)))
                None np_min true Scaler_init).
Proof.
intros EW Hu. unfold load, save, write_file. rewrite String.eqb_refl.
cbn [doc_weights doc_dimensions doc_lrfunc doc_nbfunc doc_lr doc_sigma].
rewrite EW. unfold Som_init.
destruct (Z.ltb_spec (unit_count (map_dimensions m)) 0) as [Hneg | _]; [lia |].
reflexivity.
Qed.

(** C9 (as the code has it). For a model with at least one unit whose
    shape fields are as the constructor and [fit] leave them (weights of
    data_dim columns, weight_dim the unit count the constructor computes from
    the map dimensions) and whose extremum function is the default np_min,
    [load] after [save] gives a model with the same weights, map dimensions,
    learning rate, sigma and schedule tags, marked trained, and [predict]
    returns on it what it returns on the saved model. *)
Theorem save_load_roundtrip (m : Som F) (path : string) (fs : files F) :
  weights m <> [] ->
  Forall (fun r => length r = data_dim m) (weights m) ->
  Z.of_nat (weight_dim m) = unit_count (map_dimensions m) ->
  min_max m = np_min ->
  exists m',
    load path (save m path fs) = inr m'
    /\ weights m' = weights m
    /\ map_dimensions m' = map_dimensions m
    /\ learning_rate m' = learning_rate m
    /\ sigma m' = sigma m
    /\ schedule_tag (lrfunc m') = schedule_tag (lrfunc m)
    /\ schedule_tag (nbfunc m') = schedule_tag (nbfunc m)
    /\ trained m' = true
    /\ forall X bs (g1 g2 g1' g2' : RNG),
         snd (predict X bs (mk_state m' g1' g2'))
         = snd (predict X bs (mk_state m g1 g2)).
Proof.
intros Hne Hrect Hwd Hmm.
destruct (weights m) as [| r W] eqn:EW; [congruence |].
eexists. split; [apply (@load_save_inr m path fs r W EW); lia |]. cbn.
split; [reflexivity |]. do 3 (split; [reflexivity |]).
split; [apply schedule_tag_roundtrip |].
split; [apply schedule_tag_roundtrip |].
split; [reflexivity |].
intros X bs g1 g2 g1' g2'. apply predict_depends; cbn; try congruence.
- inversion Hrect; assumption.
- rewrite <- Hwd. apply Nat2Z.id.
Qed.
End Persistence.

Lemma save_load_roundtrip_witness :
  exists m',
    load "som.json" (save (self (fst fit_min)) "som.json" no_files) = inr m'
    /\ weights m' = weights (self (fst fit_min))
    /\ map_dimensions m' = map_dimensions (self (fst fit_min))
    /\ learning_rate m' = learning_rate (self (fst fit_min))
    /\ sigma m' = sigma (self (fst fit_min))
    /\ schedule_tag (lrfunc m') = schedule_tag (lrfunc (self (fst fit_min)))
    /\ schedule_tag (nbfunc m') = schedule_tag (nbfunc (self (fst fit_min)))
    /\ trained m' = true
    /\ forall X bs (g1 g2 g1' g2' : Z),
         snd (predict X bs (mk_state m' g1' g2'))
         = snd (predict X bs (mk_state (self (fst fit_min)) g1 g2)).
Proof.
apply (save_load_roundtrip (self (fst fit_min)) "som.json" no_files).
- vm_compute. discriminate.
- vm_compute. repeat constructor.
- vm_compute. reflexivity.
- vm_compute. reflexivity.
Defined.

(** C9 as stated fails for a model trained with the arg-max extremum:
    the document does not record min_max, [load] builds the model with the
    default, and [predict] answers differently on the same input. *)
Lemma save_load_changes_predict :
  snd fit_max = inr tt
  /\ trained (self (fst fit_max)) = true
  /\ load "som.json" (save (self (fst fit_max)) "som.json" no_files) = inr loaded_max
  /\ snd (predict X_train 100 (fst fit_max)) = inr [0; 0; 1; 1]
  /\ snd (predict X_train 100 (fresh_state loaded_max)) = inr [1; 1; 0; 0].
Proof. split; [| split; [| split; [| split]]]; vm_compute; reflexivity. Qed.

(** ** Shapes through [fit] *)

Section Shapes.
Context {F RNG : Type} {SF : Scalar F} {EF : Externals F RNG}.

Lemma imap_from_rect {A B} (g : nat -> list A -> list B) (W : list (list A)) (d i : nat) :
  (forall u r, length (g u r) = length r) ->
  Forall (fun r => length r = d) W ->
  Forall (fun r => length r = d) (imap_from i g W).
Proof.
intros Hg H; revert i; induction H as [| r W Hr _ IH]; intro i; simpl; constructor.
- now rewrite Hg.
- apply IH.
Qed.

Lemma iadd_mean_rect (W : matrix F) (update : list (matrix F)) (n d : nat) :
  rect n d W -> rect n d (iadd_mean W update).
Proof.
intros [Hl Hr]. split.
- unfold iadd_mean. now rewrite length_imap.
- unfold iadd_mean, imap at 1. apply imap_from_rect; [| assumption].
  intros. apply length_imap.
Qed.

Lemma inverse_transform_rect (sc : Scaler F) (W : matrix F) (n d : nat) :
  rect n d W -> rect n d (inverse_transform sc W).
Proof.
intros [Hl Hr]. unfold inverse_transform. split.
- now rewrite length_map.
- apply Forall_forall. intros r Hin. apply in_map_iff in Hin as [r0 [<- Hr0]].
  rewrite length_imap. rewrite Forall_forall in Hr. now apply Hr.
Qed.

Lemma length_reduce0 (g : list F -> F) (d : nat) (X : matrix F) :
  length (reduce0 g d X) = d.
Proof. unfold reduce0. now rewrite length_map, length_seq. Qed.

Lemma length_draws (k : nat) (g : RNG) : length (fst (draws k g)) = k.
Proof.
revert g; induction k as [| k IH]; intro g; simpl; [reflexivity |].
destruct (random_sample g) as [x g1]. specialize (IH g1).
destruct (draws k g1) as [l g2]. simpl in *. now rewrite IH.
Qed.

Lemma rand_rect (n m : nat) (g : RNG) : rect n m (fst (rand n m g)).
Proof.
unfold rand. pose proof (length_draws (n * m) g) as Hl.
destruct (draws (n * m) g) as [l g']. simpl in *. split.
- apply length_chunks.
- now apply chunks_rect.
Qed.

Lemma seed_random_rect (d : nat) (X r : matrix F) (n : nat) :
  rect n d r -> rect n d (seed_random d X r).
Proof.
intros [Hl Hr]. unfold seed_random. split.
- now rewrite length_map.
- apply Forall_forall. intros row Hin. apply in_map_iff in Hin as [r0 [<- Hr0]].
  rewrite !length_map2, !length_reduce0.
  rewrite Forall_forall in Hr. rewrite (Hr r0 Hr0). lia.
Qed.

Lemma with_rng_inr {A} (xp : backend) (g : RNG -> A * RNG) (st st' : state F RNG) (x : A) :
  with_rng xp g st = (st', inr x) ->
  self st' = self st /\ exists r, x = fst (g r).
Proof.
unfold with_rng. destruct xp.
- destruct (g (np_random st)) as [y r'] eqn:E. intro H. injection H as <- <-.
  split; [reflexivity |]. exists (np_random st). now rewrite E.
- destruct (g (cp_random st)) as [y r'] eqn:E. intro H. injection H as <- <-.
  split; [reflexivity |]. exists (cp_random st). now rewrite E.
Qed.

Lemma bind_inr {A B} (c : M F RNG A) (k : A -> M F RNG B) st st' (y : B) :
  bind c k st = (st', inr y) ->
  exists x st1, c st = (st1, inr x) /\ k x st1 = (st', inr y).
Proof.
unfold bind. destruct (c st) as [st1 [e | x]]; intro H; [discriminate | eauto].
Qed.

Lemma random_weights_rect xp (s : Som F) d (X : matrix F) st st' w :
  random_weights xp s d X st = (st', inr w) ->
  self st' = self st /\ rect (length (weights s)) d w.
Proof.
unfold random_weights.
destruct ((length X =? 0) && negb (d =? 0)); [discriminate |].
intro H. apply bind_inr in H as [r [st1 [Hr Hw]]].
apply with_rng_inr in Hr as [Hs [g ->]].
injection Hw as <- <-. split; [assumption |].
apply seed_random_rect, rand_rect.
Qed.

Lemma pca_weights_rect (s : Som F) d (X : matrix F) st st' w :
  pca_weights s d X st = (st', inr w) ->
  self st' = self st /\ rect (length (weights s)) d w.
Proof.
unfold pca_weights.
destruct (nth_error (map_dimensions s) 1) as [height |]; [| discriminate].
intro H. apply bind_inr in H as [r [st1 [Hr Hw]]].
apply with_rng_inr in Hr as [Hs _].
destruct r as [e | [eigvec eigval]]; [discriminate |].
injection Hw as <- <-. split; [assumption |]. split.
- now rewrite !length_map, length_seq.
- apply Forall_forall. intros row Hin. apply in_map_iff in Hin as [u [<- _]].
  now rewrite length_imap, length_reduce0.
Qed.

Lemma check_input_inr (s : Som F) (X : ndarray F) u :
  _check_input s X = inr u -> ndim X = 2 /\ shape1 X = data_dim s.
Proof.
unfold _check_input.
destruct (Nat.eqb_spec (ndim X) 2); simpl; [| discriminate].
destruct (Nat.eqb_spec (shape1 X) (data_dim s)); simpl; [| discriminate].
auto.
Qed.

Ltac shape_leaf :=
  intros;
  first [ assumption
        | apply iadd_mean_rect; assumption
        | apply inverse_transform_rect; assumption ].

(** A [fit] that returns was given a well-shaped input and leaves weights of
    as many rows as before, each of data_dim entries. *)
Lemma fit_weights_rect (X : ndarray F) (a : fit_args F) (st st' : state F RNG) :
  fit X a st = (st', inr tt) ->
  ndim X = 2 /\ shape1 X = data_dim (self st)
  /\ rect (length (weights (self st))) (shape1 X) (weights (self st')).
Proof.
intro H. unfold fit in H.
apply bind_inr in H as [s [st1 [H1 H]]]. injection H1 as <- <-.
apply bind_inr in H as [u [st2 [H2 H]]]. injection H2 as <- H2.
apply check_input_inr in H2 as [Hn Hd].
apply bind_inr in H as [u3 [st3 [H3 H]]]. injection H3 as <- _.
apply bind_inr in H as [u4 [st4 [H4 H]]]. apply with_rng_inr in H4 as [H4 _].
apply bind_inr in H as [s5 [st5 [H5 H]]]. injection H5 as <- <-.
apply bind_inr in H as [w [st6 [Hseed H]]].
apply bind_inr in H as [u7 [st7 [H7 H]]]. injection H7 as <- _.
assert (Hw : rect (length (weights (self st))) (shape1 X) w).
{ replace (weights (self st)) with (weights (self st4)) by (rewrite H4; reflexivity).
  destruct (init_pca a).
  - destruct (backend_eqb (module X) cupy); [discriminate |].
    now apply pca_weights_rect in Hseed.
  - now apply random_weights_rect in Hseed. }
split; [assumption |]. split; [assumption |].
match type of H with
| ?c ?s0 = _ =>
    assert (Hinv : inv RNG (fun s => rect (length (weights (self st))) (shape1 X) (weights s)) c)
      by (repeat inv_step shape_leaf);
    specialize (Hinv s0 Hw); rewrite H in Hinv; exact Hinv
end.
Qed.
(** A [fit] that returns has stored the grid that
    [_initialize_distance_grid] builds from the map geometry. *)
Lemma fit_distance_grid (X : ndarray F) (a : fit_args F) (st st' : state F RNG) :
  fit X a st = (st', inr tt) ->
  exists grid,
    _initialize_distance_grid (self st) = inr grid
    /\ distance_grid (self st') = Some grid.
Proof.
intro H. unfold fit in H.
apply bind_inr in H as [s [st1 [H1 H]]]. injection H1 as <- <-.
apply bind_inr in H as [u [st2 [H2 H]]]. injection H2 as <- H2.
apply bind_inr in H as [u3 [st3 [H3 H]]]. injection H3 as <- _.
apply bind_inr in H as [u4 [st4 [H4 H]]]. apply with_rng_inr in H4 as [H4 _].
apply bind_inr in H as [s5 [st5 [H5 H]]]. injection H5 as <- <-.
apply bind_inr in H as [w [st6 [Hseed H]]].
assert (H6 : self st6 = self st4).
{ destruct (init_pca a).
  - destruct (backend_eqb (module X) cupy); [discriminate |].
    now apply pca_weights_rect in Hseed.
  - now apply random_weights_rect in Hseed. }
apply bind_inr in H as [u7 [st7 [H7 H]]]. injection H7 as <- _.
match type of H with
| (if ?b then _ else _) _ = _ => destruct b; [discriminate |]
end.
assert (Hs7 : hyper_of (set_weights w (self st6)) = hyper_of (self st)).
{ change (hyper_of (self st6) = hyper_of (self st)). rewrite H6, H4. reflexivity. }
apply bind_inr in H as [u8 [st8 [H8 H]]].
assert (Hs8 : hyper_of (self st8) = hyper_of (self st)).
{ match type of H8 with
  | ?c ?s0 = _ =>
      assert (Hi : inv RNG (fun s => hyper_of s = hyper_of (self st)) c)
        by apply inv_create_batches;
      specialize (Hi s0 Hs7); rewrite H8 in Hi; exact Hi
  end. }
apply bind_inr in H as [s9 [st9 [H9 H]]]. injection H9 as <- <-.
apply bind_inr in H as [grid [st10 [H10 H]]]. injection H10 as <- H10.
apply bind_inr in H as [u11 [st11 [H11 H]]]. injection H11 as <- _.
exists grid. split.
- assert (Hwd : weight_dim (self st8) = weight_dim (self st))
    by exact (f_equal h_weight_dim Hs8).
  assert (Hmd : map_dimensions (self st8) = map_dimensions (self st))
    by exact (f_equal h_map_dimensions Hs8).
  rewrite <- H10. unfold _initialize_distance_grid, _grid_distance.
  now rewrite Hwd, Hmd.
- match type of H with
  | ?c ?s0 = _ =>
      assert (Hinv : inv RNG (fun s => distance_grid s = Some grid) c)
        by (repeat inv_step ltac:(intros; assumption));
      specialize (Hinv s0 eq_refl); rewrite H in Hinv; exact Hinv
  end.
Qed.
End Shapes.

(** ** The distance grid *)

Section DistanceGrid.
Context {F RNG : Type} {SF : Scalar F} {EF : Externals F RNG}.

Lemma sqdist_sym (height i j : nat) : sqdist height i j = sqdist height j i.
Proof. unfold sqdist. nia. Qed.

Lemma sqdist_diag (height i : nat) : sqdist height i i = 0%Z.
Proof. unfold sqdist. rewrite !Z.sub_diag. reflexivity. Qed.

Lemma grid_distance_ok (s : Som F) (width height i : nat) :
  map_dimensions s = [width; height] -> height <> 0 ->
  _grid_distance s i =
    inr (map (fun a => map (fun b =>
           (Z.abs (Z.of_nat a - Z.of_nat (i / height)) ^ 2
            + Z.abs (Z.of_nat b - Z.of_nat (i mod height)) ^ 2)%Z)
           (seq 0 height)) (seq 0 width)).
Proof.
intros Hd Hh. unfold _grid_distance. rewrite Hd.
destruct (Nat.eqb_spec height 0) as [-> | _]; [congruence |].
f_equal. rewrite map_map. apply map_ext; intro a. now rewrite map_map.
Qed.

(** C3. The grid that [_initialize_distance_grid] builds, and that every
    [fit] that returns has stored, has at (i, j) the squared grid distance
    (row_i - row_j)^2 + (col_i - col_j)^2 with row = index // height and
    col = index % height; it is symmetric and zero on the diagonal. *)
Theorem distance_grid_spec (s : Som F) (width height : nat) :
  map_dimensions s = [width; height] -> weight_dim s = width * height ->
  exists grid,
    _initialize_distance_grid s = inr grid
    /\ (forall X a (st st' : state F RNG),
          self st = s -> fit X a st = (st', inr tt) ->
          distance_grid (self st') = Some grid)
    /\ length grid = width * height
    /\ forall i j, i < width * height -> j < width * height ->
         D grid i j = of_Z (sqdist height i j)
         /\ D grid i j = D grid j i
         /\ D grid i i = of_Z 0.
Proof.
intros Hd Hw.
set (cell := fun i a b =>
       (Z.abs (Z.of_nat a - Z.of_nat (i / height)) ^ 2
        + Z.abs (Z.of_nat b - Z.of_nat (i mod height)) ^ 2)%Z).
set (g := fun i : nat =>
       map (map (@of_Z F SF))
           (map (fun a => map (cell i a) (seq 0 height)) (seq 0 width))).
exists (map g (seq 0 (width * height))).
assert (Hgrid : _initialize_distance_grid s = inr (map g (seq 0 (width * height)))).
{ unfold _initialize_distance_grid. rewrite Hw. apply mapM_inr.
  intros i Hi. apply in_seq in Hi.
  assert (Hh : height <> 0) by (intro; subst height; lia).
  rewrite (grid_distance_ok s i Hd Hh). reflexivity. }
assert (Hentry : forall i j, i < width * height -> j < width * height ->
          D (map g (seq 0 (width * height))) i j = of_Z (sqdist height i j)).
{ intros i j Hi Hj.
  assert (Hh : height <> 0) by (intro; subst height; lia).
  unfold D. rewrite (nth_map_seq g [] Hi). unfold g.
  rewrite (@nth_concat_rect _ _ height).
  - rewrite !map_map.
    assert (Hq : j / height < width) by (apply Nat.Div0.div_lt_upper_bound; lia).
    assert (Hr : j mod height < height) by (apply Nat.mod_upper_bound; lia).
    rewrite (nth_map_seq _ [] Hq), map_map, (nth_map_seq _ f0 Hr).
    f_equal. unfold cell, sqdist.
    rewrite <- !Z.abs_pow, !Z.abs_eq by (apply Z.pow_even_nonneg; exists 1%Z; reflexivity).
    nia.
  - rewrite !map_map. apply Forall_forall. intros r Hr.
    apply in_map_iff in Hr as [a [<- _]]. now rewrite !length_map, length_seq.
  - now rewrite !length_map, length_seq. }
split; [exact Hgrid |]. split.
{ intros X a st st' Hst Hfit. subst s.
  destruct (fit_distance_grid X a st Hfit) as [grid' [Hg' Hd']].
  rewrite Hgrid in Hg'. injection Hg' as <-. exact Hd'. }
split; [now rewrite length_map, length_seq |].
intros i j Hi Hj. split; [| split].
- now apply Hentry.
- rewrite !Hentry by assumption. now rewrite sqdist_sym.
- rewrite Hentry by assumption. now rewrite sqdist_diag.
Qed.
End DistanceGrid.

Lemma distance_grid_spec_witness :
  exists grid,
    _initialize_distance_grid (fresh_som [2; 3] 2 np_min) = inr grid
    /\ (forall X a (st st' : state float Z),
          self st = fresh_som [2; 3] 2 np_min -> fit X a st = (st', inr tt) ->
          distance_grid (self st') = Some grid)
    /\ length grid = 2 * 3
    /\ forall i j, i < 2 * 3 -> j < 2 * 3 ->
         D grid i j = of_Z (sqdist 3 i j)
         /\ D grid i j = D grid j i
         /\ D grid i i = of_Z 0.
Proof.
apply (distance_grid_spec (fresh_som [2; 3] 2 np_min) (width := 2) (height := 3));
  reflexivity.
Defined.

(** ** map_weights *)

Section MapWeights.
Context {F RNG : Type} {SF : Scalar F} {EF : Externals F RNG}.

Lemma nth_chunks {A} (n m : nat) (l : list A) (r c : nat) (d : A) :
  r < n -> c < m ->
  nth c (nth r (chunks n m l) []) d = nth (r * m + c) l d.
Proof.
revert l r; induction n as [| n IH]; intros l r Hr Hc; [lia |].
simpl. destruct r as [| r].
- rewrite nth_firstn. simpl. destruct (Nat.ltb_spec c m); [reflexivity | lia].
- rewrite IH by lia. rewrite nth_skipn. f_equal. simpl. lia.
Qed.

(** The grid of a model whose weights are width * height rows of data_dim
    entries: height by width by data_dim, cell (c, r) holding row
    r * height + c of the reshaped array. *)
Lemma map_weights_layout (s : Som F) (width height : nat) :
  map_dimensions s = [width; height] ->
  rect (width * height) (data_dim s) (weights s) ->
  exists out,
    map_weights s = inr out
    /\ length out = height
    /\ (forall c, c < height -> length (nth c out []) = width)
    /\ (forall c r, c < height -> r < width ->
          length (nth r (nth c out []) []) = data_dim s
          /\ nth r (nth c out []) [] = nth (r * height + c) (map_weights_source s) []).
Proof.
intros Hd HW.
pose proof (inverse_transform_rect (scaler s) HW) as [Hl Hr].
fold (map_weights_source s) in Hl, Hr.
unfold map_weights. rewrite Hd. fold (map_weights_source s).
assert (Hre : reshape2 (width * height) (data_dim s) (concat (map_weights_source s))
              = inr (map_weights_source s))
  by (rewrite <- Hl; apply reshape2_concat; exact Hr).
rewrite Hre. eexists. split; [reflexivity |]. unfold transpose_102.
split; [now rewrite length_map, length_seq |].
split.
- intros c Hc. rewrite (nth_map_seq _ [] Hc). now rewrite length_map, length_chunks.
- intros c r Hc Hrw. rewrite (nth_map_seq _ [] Hc).
  rewrite (nth_indep _ [] (nth c [] []))
    by (now rewrite length_map, length_chunks).
  rewrite (map_nth (fun row => nth c row [])).
  rewrite nth_chunks by assumption. split; [| reflexivity].
  rewrite Forall_forall in Hr. apply Hr, nth_In. nia.
Qed.

(** C5 (as the code has it). After a [fit] that returns, on a model whose
    weight matrix has width * height rows, [map_weights] returns an array of
    shape (height, width, data_dim) whose cell (c, r) is row r * height + c
    of the array it reshapes: the unit of row r and column c in the
    convention of [_grid_distance], stored col-first. *)
Theorem map_weights_after_fit (X : ndarray F) (a : fit_args F)
        (st st' : state F RNG) (width height : nat) :
  map_dimensions (self st) = [width; height] ->
  length (weights (self st)) = width * height ->
  fit X a st = (st', inr tt) ->
  exists out,
    map_weights (self st') = inr out
    /\ length out = height
    /\ (forall c, c < height -> length (nth c out []) = width)
    /\ (forall c r, c < height -> r < width ->
          length (nth r (nth c out []) []) = data_dim (self st')
          /\ nth r (nth c out []) []
             = nth (r * height + c) (map_weights_source (self st')) []).
Proof.
intros Hd Hl Hfit.
pose proof (keeps_fit X a (h := hyper_of (self st)) st eq_refl) as Hk.
cbv beta in Hk. rewrite Hfit in Hk. simpl in Hk.
apply fit_weights_rect in Hfit as [_ [Hdd HW]].
assert (Hmd : map_dimensions (self st') = [width; height])
  by (rewrite <- Hd; exact (f_equal h_map_dimensions Hk)).
assert (Hdim : data_dim (self st') = shape1 X)
  by (rewrite Hdd; exact (f_equal h_data_dim Hk)).
apply map_weights_layout; [assumption |].
now rewrite Hdim, <- Hl.
Qed.
End MapWeights.

Lemma map_weights_after_fit_witness :
  exists out,
    map_weights (self (fst fit_min)) = inr out
    /\ length out = 2
    /\ (forall c, c < 2 -> length (nth c out []) = 1)
    /\ (forall c r, c < 2 -> r < 1 ->
          length (nth r (nth c out []) []) = data_dim (self (fst fit_min))
          /\ nth r (nth c out []) []
             = nth (r * 2 + c) (map_weights_source (self (fst fit_min))) []).
Proof.
apply (map_weights_after_fit X_train args_train
         (fresh_state (fresh_som [1; 2] 1 np_min)) (st' := fst fit_min)
         (width := 1) (height := 2)).
- reflexivity.
- reflexivity.
- vm_compute. reflexivity.
Defined.

(** C5 as stated fails after a completed [fit] on a 1-by-2 map: the result
    has height = 2 outer entries of width = 1 cells, not width entries of
    height cells. (Its entries are not the weights either: they are larger
    than the weight they come from, having been unscaled a second time.) *)
Lemma map_weights_shape_is_transposed :
  snd fit_min = inr tt
  /\ map_dimensions (self (fst fit_min)) = [1; 2]
  /\ option_map (fun out => (length out, map (@length _) out))
                (match map_weights (self (fst fit_min)) with
                 | inr out => Some out
                 | inl _ => None
                 end)
     = Some (2, [1; 1])
  /\ match map_weights (self (fst fit_min)) with
     | inr out =>
         PrimFloat.ltb (nth 0 (nth 0 (weights (self (fst fit_min))) []) f0)
                       (nth 0 (nth 0 (nth 0 out []) []) f0)
     | inl _ => false
     end = true.
Proof. split; [| split; [| split]]; vm_compute; reflexivity. Qed.

(** ** Arithmetic facts, in exact real arithmetic *)

Section RealLists.
Local Open Scope R_scope.

Lemma of_nat_INR (n : nat) : of_nat (F := R) n = INR n.
Proof. unfold of_nat. simpl. symmetry. apply INR_IZR_INZ. Qed.

Lemma Rltb_true (a b : R) : Rltb a b = true <-> a < b.
Proof. unfold Rltb. destruct (Rlt_dec a b); split; intros; auto; discriminate. Qed.

Lemma Rltb_false (a b : R) : Rltb a b = false <-> b <= a.
Proof.
unfold Rltb. destruct (Rlt_dec a b); split; intros; auto; try discriminate; lra.
Qed.

Lemma fold_left_Rplus (l : list R) (a : R) :
  fold_left Rplus l a = a + fold_left Rplus l 0.
Proof.
revert a; induction l as [| x l IH]; intro a; simpl; [lra |].
rewrite (IH (a + x)), (IH (0 + x)). lra.
Qed.

Lemma fsum_cons (x : R) (l : list R) : fsum (x :: l) = x + fsum l.
Proof. unfold fsum. simpl. rewrite fold_left_Rplus. unfold f0; simpl. lra. Qed.

Lemma fsum_nil : fsum (F := R) [] = 0.
Proof. reflexivity. Qed.

Lemma fsum_le (l : list R) (M : R) :
  (forall x, In x l -> x <= M) -> fsum l <= INR (length l) * M.
Proof.
induction l as [| x l IH]; intro H.
- rewrite fsum_nil. simpl. lra.
- rewrite fsum_cons. change (length (x :: l)) with (S (length l)). rewrite S_INR.
  pose proof (H x (or_introl eq_refl)).
  assert (fsum l <= INR (length l) * M) by (apply IH; intros; apply H; now right).
  lra.
Qed.

Lemma fsum_ge (l : list R) (m : R) :
  (forall x, In x l -> m <= x) -> INR (length l) * m <= fsum l.
Proof.
induction l as [| x l IH]; intro H.
- rewrite fsum_nil. simpl. lra.
- rewrite fsum_cons. change (length (x :: l)) with (S (length l)). rewrite S_INR.
  pose proof (H x (or_introl eq_refl)).
  assert (INR (length l) * m <= fsum l) by (apply IH; intros; apply H; now right).
  lra.
Qed.

(** [maximum] and [minimum] are attained bounds. *)
Lemma maximum_fold (l : list R) (a : R) :
  let m := fold_left (fun a b => if Rltb a b then b else a) l a in
  (a <= m /\ forall x, In x l -> x <= m) /\ (m = a \/ In m l).
Proof.
revert a; induction l as [| x l IH]; intro a; simpl.
- split; [split; [lra | tauto] | now left].
- destruct (IH (if Rltb a x then x else a)) as [[H1 H2] H3].
  destruct (Rltb a x) eqn:E.
  + apply Rltb_true in E. split; [split; [lra |] |].
    * intros y [<- | Hy]; [assumption | now apply H2].
    * destruct H3 as [-> | H3]; right; [now left | now right].
  + apply Rltb_false in E. split; [split; [lra |] |].
    * intros y [<- | Hy]; [lra | now apply H2].
    * destruct H3 as [-> | H3]; [now left | right; now right].
Qed.

Lemma maximum_spec (l : list R) :
  l <> [] -> In (maximum l) l /\ forall x, In x l -> x <= maximum l.
Proof.
destruct l as [| a l]; [congruence | intros _]. unfold maximum. simpl.
destruct (maximum_fold l a) as [[H1 H2] H3]. split.
- destruct H3 as [-> | H3]; [now left | now right].
- intros x [<- | Hx]; [assumption | now apply H2].
Qed.

Lemma minimum_fold (l : list R) (a : R) :
  let m := fold_left (fun a b => if Rltb b a then b else a) l a in
  (m <= a /\ forall x, In x l -> m <= x) /\ (m = a \/ In m l).
Proof.
revert a; induction l as [| x l IH]; intro a; simpl.
- split; [split; [lra | tauto] | now left].
- destruct (IH (if Rltb x a then x else a)) as [[H1 H2] H3].
  destruct (Rltb x a) eqn:E.
  + apply Rltb_true in E. split; [split; [lra |] |].
    * intros y [<- | Hy]; [assumption | now apply H2].
    * destruct H3 as [-> | H3]; right; [now left | now right].
  + apply Rltb_false in E. split; [split; [lra |] |].
    * intros y [<- | Hy]; [lra | now apply H2].
    * destruct H3 as [-> | H3]; [now left | right; now right].
Qed.

Lemma minimum_spec (l : list R) :
  l <> [] -> In (minimum l) l /\ forall x, In x l -> minimum l <= x.
Proof.
destruct l as [| a l]; [congruence | intros _]. unfold minimum. simpl.
destruct (minimum_fold l a) as [[H1 H2] H3]. split.
- destruct H3 as [-> | H3]; [now left | now right].
- intros x [<- | Hx]; [assumption | now apply H2].
Qed.

(** The mean lies between the extremes. *)
Lemma mean_between (l : list R) :
  l <> [] -> minimum l <= mean l <= maximum l.
Proof.
intro Hne. destruct (maximum_spec Hne) as [_ Hmax].
destruct (minimum_spec Hne) as [_ Hmin].
pose proof (fsum_le l Hmax) as Hle. pose proof (fsum_ge l Hmin) as Hge.
assert (Hn : 0 < INR (length l)).
{ apply lt_0_INR. destruct l; [congruence | simpl; lia]. }
unfold mean. rewrite of_nat_INR. simpl. split.
- apply Rmult_le_reg_l with (INR (length l)); [assumption |].
  unfold Rdiv. rewrite (Rmult_comm (fsum l)), <- Rmult_assoc, Rinv_r, Rmult_1_l by lra.
  assumption.
- apply Rmult_le_reg_l with (INR (length l)); [assumption |].
  unfold Rdiv. rewrite (Rmult_comm (fsum l)), <- Rmult_assoc, Rinv_r, Rmult_1_l by lra.
  assumption.
Qed.

Lemma epsilon_value : epsilon (F := R) = 1 / 100000.
Proof. unfold epsilon. simpl. lra. Qed.

Lemma std_nonneg (l : list R) : 0 <= std l.
Proof. unfold std. simpl. apply sqrt_pos. Qed.
End RealLists.

(** ** The scaler and the uniform seeding, in exact real arithmetic *)

Section RealScaler.
Local Open Scope R_scope.

Lemma bget_fit_mean (d : nat) (X : matrix R) (f : nat) :
  (f < d)%nat -> bget (scaler_mean (Scaler_fit d X)) f = mean (col f X).
Proof.
intro Hf. unfold Scaler_fit. cbn [scaler_mean bget]. unfold reduce0.
now rewrite (nth_map_seq _ f0 Hf).
Qed.

Lemma bget_fit_std (d : nat) (X : matrix R) (f : nat) :
  (f < d)%nat -> bget (scaler_std (Scaler_fit d X)) f = std (col f X).
Proof.
intro Hf. unfold Scaler_fit. cbn [scaler_std bget]. unfold reduce0.
now rewrite (nth_map_seq _ f0 Hf).
Qed.

Lemma col_transform (n d : nat) (X : matrix R) (f : nat) :
  rect n d X -> (f < d)%nat ->
  col f (transform (Scaler_fit d X) X)
  = map (scaled (mean (col f X)) (std (col f X))) (col f X).
Proof.
intros [_ Hr] Hf. unfold col, transform. rewrite !map_map.
apply map_ext_in. intros row Hin.
rewrite Forall_forall in Hr. specialize (Hr row Hin).
rewrite (nth_imap _ row f0 f0) by lia.
rewrite bget_fit_mean, bget_fit_std by assumption. reflexivity.
Qed.

Lemma epsilon_pos : 0 < epsilon (F := R).
Proof. rewrite epsilon_value. lra. Qed.

(** The scaled data of every feature has a value below or at 0 and one
    above or at 0. *)
Lemma scaled_column_straddles_zero (l : list R) :
  l <> [] ->
  minimum (map (scaled (mean l) (std l)) l) <= 0
  <= maximum (map (scaled (mean l) (std l)) l).
Proof.
intro Hne.
assert (Hne' : map (scaled (mean l) (std l)) l <> [])
  by (destruct l; [congruence | discriminate]).
destruct (mean_between Hne) as [Hlo Hhi].
destruct (maximum_spec Hne) as [Hmax_in _].
destruct (minimum_spec Hne) as [Hmin_in _].
destruct (maximum_spec Hne') as [_ Hmax'].
destruct (minimum_spec Hne') as [_ Hmin'].
pose proof (std_nonneg l) as Hs. pose proof epsilon_pos as He.
assert (Hpos : 0 < / (std l + epsilon)) by (apply Rinv_0_lt_compat; lra).
split.
- apply Rle_trans with (scaled (mean l) (std l) (minimum l)).
  + apply Hmin'. now apply in_map.
  + unfold scaled, Rdiv. nra.
- apply Rle_trans with (scaled (mean l) (std l) (maximum l)).
  + unfold scaled, Rdiv. nra.
  + apply Hmax'. now apply in_map.
Qed.
End RealScaler.

Section RealSeeding.
Context {RNG : Type} {EF : Externals R RNG}.
Local Open Scope R_scope.

Lemma draws_range (k : nat) (g : RNG) :
  (forall g, 0 <= fst (random_sample g) < 1) ->
  Forall (fun x => 0 <= x < 1) (fst (draws k g)).
Proof.
intro H. revert g; induction k as [| k IH]; intro g; simpl; [constructor |].
pose proof (H g) as Hg. destruct (random_sample g) as [x g1].
specialize (IH g1). destruct (draws k g1) as [l g2]. simpl in *.
now constructor.
Qed.

Lemma rand_entry_range (n m : nat) (g : RNG) (u f : nat) :
  (forall g, 0 <= fst (random_sample g) < 1) ->
  (u < n)%nat -> (f < m)%nat ->
  0 <= nth f (nth u (fst (rand n m g)) []) 0 < 1.
Proof.
intros H Hu Hf. unfold rand.
pose proof (draws_range (n * m) g H) as Hall.
pose proof (length_draws (n * m) g) as Hlen.
destruct (draws (n * m) g) as [l g']. simpl in *.
rewrite nth_chunks by assumption.
rewrite Forall_forall in Hall. apply Hall, nth_In. nia.
Qed.

Lemma random_weights_ok (xp : backend) (s : Som R) (d : nat) (X : matrix R)
      (st : state R RNG) :
  (1 <= length X)%nat ->
  exists st' g,
    random_weights xp s d X st
    = (st', inr (seed_random d X (fst (rand (length (weights s)) d g)))).
Proof.
intro Hn. unfold random_weights.
destruct (Nat.eqb_spec (length X) 0) as [E | _]; [lia |]. simpl.
unfold bind, with_rng, ret. destruct xp.
- destruct (rand (length (weights s)) d (np_random st)) as [r g'] eqn:E.
  do 2 eexists. rewrite E. reflexivity.
- destruct (rand (length (weights s)) d (cp_random st)) as [r g'] eqn:E.
  do 2 eexists. rewrite E. reflexivity.
Qed.

Lemma seed_random_entry (d : nat) (X r : matrix R) (n u f : nat) :
  rect n d r -> (u < n)%nat -> (f < d)%nat ->
  nth f (nth u (seed_random d X r) []) 0
  = (minimum (col f X) + (maximum (col f X) - minimum (col f X)))
    * nth f (nth u r []) 0.
Proof.
intros [Hl Hr] Hu Hf. unfold seed_random.
set (dr := map2 fadd (reduce0 minimum d X)
                (map2 fsub (reduce0 maximum d X) (reduce0 minimum d X))).
assert (Hdr : length dr = d)
  by (unfold dr; rewrite !length_map2, !length_reduce0; lia).
assert (Hrow : length (nth u r []) = d).
{ rewrite Forall_forall in Hr. apply Hr, nth_In. lia. }
rewrite (nth_indep _ [] ((fun row => map2 fmul dr row) []))
  by (rewrite length_map; lia).
rewrite (map_nth (fun row => map2 fmul dr row)).
rewrite (nth_map2 fmul dr (nth u r []) 0 0 0) by lia.
f_equal. unfold dr.
rewrite (nth_map2 fadd _ _ 0 0 0)
  by (rewrite ?length_map2, !length_reduce0; lia).
rewrite (nth_map2 fsub _ _ 0 0 0) by (rewrite !length_reduce0; lia).
unfold reduce0. rewrite !(nth_map_seq _ 0 Hf). reflexivity.
Qed.

(** The uniform seeding in exact real arithmetic: the weight (u, f) is the
    draw r for that entry, in [0, 1), times min_f + (max_f - min_f), which is
    max_f; the scaled data of a feature has min_f <= 0 <= max_f, so the weight
    lies in [0, max_f], within the range of the feature. *)
Lemma seeding_in_exact_arithmetic (xp : backend) (s : Som R) (n d : nat)
      (X : matrix R) (st : state R RNG) :
  (forall g, 0 <= fst (random_sample g) < 1) ->
  rect n d X -> (1 <= n)%nat ->
  exists st' g,
    random_weights xp s d (transform (Scaler_fit d X) X) st
    = (st', inr (seed_random d (transform (Scaler_fit d X) X)
                             (fst (rand (length (weights s)) d g))))
    /\ forall u f, (u < length (weights s))%nat -> (f < d)%nat ->
         0 <= nth f (nth u (fst (rand (length (weights s)) d g)) []) 0 < 1
         /\ nth f (nth u (seed_random d (transform (Scaler_fit d X) X)
                                      (fst (rand (length (weights s)) d g))) []) 0
            = maximum (col f (transform (Scaler_fit d X) X))
              * nth f (nth u (fst (rand (length (weights s)) d g)) []) 0
         /\ minimum (col f (transform (Scaler_fit d X) X)) <= 0
         /\ 0 <= nth f (nth u (seed_random d (transform (Scaler_fit d X) X)
                                           (fst (rand (length (weights s)) d g))) []) 0
              <= maximum (col f (transform (Scaler_fit d X) X)).
Proof.
intros Hdraw HX Hn.
set (Xs := transform (Scaler_fit d X) X).
assert (HlenXs : length Xs = n)
  by (unfold Xs, transform; rewrite length_map; apply HX).
destruct (random_weights_ok xp s d Xs st) as [st' [g Hrun]]; [lia |].
exists st', g. split; [exact Hrun |].
intros u f Hu Hf.
assert (Hcol : col f Xs = map (scaled (mean (col f X)) (std (col f X))) (col f X))
  by (apply (col_transform HX Hf)).
assert (Hne : col f X <> []).
{ unfold col. destruct HX as [HXl _]. destruct X; [simpl in HXl; lia | discriminate]. }
pose proof (scaled_column_straddles_zero Hne) as [Hlo Hhi]. rewrite <- Hcol in Hlo, Hhi.
pose proof (@rand_entry_range (length (weights s)) d g u f Hdraw Hu Hf) as Hr.
assert (Hrr : rect (length (weights s)) d (fst (rand (length (weights s)) d g)))
  by apply rand_rect.
rewrite (@seed_random_entry d Xs _ (length (weights s)) u f Hrr Hu Hf).
split; [exact Hr |]. split; [ring |]. split; [exact Hlo |]. nra.
Qed.
End RealSeeding.

(** C8 fails on the code, by rounding and the way the range is applied.
    Seven rows of the constant 0.1 scale to one non-zero residue m, the mean
    of the column not being 0.1 on floats, so the least and the greatest
    scaled value of the feature are both m. [fit] seeds the weights with
    (min + (max - min)) * r = m * r for the draws r in [0, 1): both seeded
    weights lie strictly below m, outside the range of the feature. *)
Theorem random_seeding_leaves_range :
  minimum (col 0 X_const_scaled) = maximum (col 0 X_const_scaled)
  /\ PrimFloat.ltb f0 (minimum (col 0 X_const_scaled)) = true
  /\ snd seeded_const = inr seeded_const_weights
  /\ length seeded_const_weights = 2
  /\ forallb (fun row => PrimFloat.ltb (nth 0 row f0) (minimum (col 0 X_const_scaled)))
             seeded_const_weights = true
  /\ weights (self (fst (fit X_const args_zero_batch
                              (fresh_state (fresh_som [1; 2] 1 np_min)))))
     = seeded_const_weights.
Proof.
split; [| split; [| split; [| split; [| split]]]]; vm_compute; reflexivity.
Qed.

Section RealRoundTrip.
Local Open Scope R_scope.


End RealRoundTrip.


(** ** The round-trip error is not bounded by epsilon |x| plus a constant *)

Section RealOutlier.
Local Open Scope R_scope.






End RealOutlier.


(** ** The default extremum is the first minimum *)

Section RealArgmin.
Local Open Scope R_scope.

Lemma argmin_from_spec (l pre : list R) (bi : nat) (b : R) :
  (bi < length pre)%nat -> nth bi pre 0 = b ->
  (forall j, (j < length pre)%nat -> b <= nth j pre 0) ->
  (forall j, (j < bi)%nat -> b < nth j pre 0) ->
  (snd (argmin_from (length pre) bi b l) < length (pre ++ l))%nat
  /\ nth (snd (argmin_from (length pre) bi b l)) (pre ++ l) 0
     = fst (argmin_from (length pre) bi b l)
  /\ (forall j, (j < length (pre ++ l))%nat ->
        fst (argmin_from (length pre) bi b l) <= nth j (pre ++ l) 0)
  /\ (forall j, (j < snd (argmin_from (length pre) bi b l))%nat ->
        fst (argmin_from (length pre) bi b l) < nth j (pre ++ l) 0).
Proof.
revert pre bi b; induction l as [| x l IH]; intros pre bi b Hbi Hb Hle Hlt.
- simpl. rewrite app_nil_r. auto.
- simpl argmin_from.
  replace (pre ++ x :: l) with ((pre ++ [x]) ++ l) by (now rewrite <- app_assoc).
  assert (Hlen : length (pre ++ [x]) = S (length pre))
    by (rewrite length_app; simpl; lia).
  rewrite <- Hlen.
  assert (Hpre : forall j, (j < length pre)%nat -> nth j (pre ++ [x]) 0 = nth j pre 0)
    by (intros; now apply app_nth1).
  assert (Hx : nth (length pre) (pre ++ [x]) 0 = x)
    by (rewrite app_nth2, Nat.sub_diag by lia; reflexivity).
  destruct (Rltb x b) eqn:E.
  + apply Rltb_true in E. apply IH.
    * lia.
    * exact Hx.
    * intros j Hj. destruct (Nat.eq_dec j (length pre)) as [-> | Hne].
      -- rewrite Hx. lra.
      -- rewrite Hpre by lia. specialize (Hle j ltac:(lia)). lra.
    * intros j Hj. rewrite Hpre by lia. specialize (Hle j Hj). lra.
  + apply Rltb_false in E. apply IH.
    * lia.
    * rewrite Hpre by lia. exact Hb.
    * intros j Hj. destruct (Nat.eq_dec j (length pre)) as [-> | Hne].
      -- rewrite Hx. lra.
      -- rewrite Hpre by lia. apply Hle. lia.
    * intros j Hj. rewrite Hpre by lia. now apply Hlt.
Qed.

(** On the reals, np_min returns the least value of a non-empty row and the
    first index where it occurs. *)
Lemma np_min_is_argmin (row : list R) :
  row <> [] ->
  exists v i,
    np_min row = Some (v, i)
    /\ (i < length row)%nat
    /\ nth i row 0 = v
    /\ (forall j, (j < length row)%nat -> v <= nth j row 0)
    /\ (forall j, (j < i)%nat -> v < nth j row 0).
Proof.
destruct row as [| x l]; [congruence | intros _].
exists (fst (argmin_from 1 0 x l)), (snd (argmin_from 1 0 x l)).
split; [unfold np_min; now rewrite <- surjective_pairing |].
apply (argmin_from_spec l [x] (bi := 0%nat) (b := x)).
- simpl; lia.
- reflexivity.
- intros j Hj. simpl in Hj. replace j with 0%nat by lia. simpl. lra.
- intros j Hj. lia.
Qed.
End RealArgmin.

(** * Further properties of the code *)

(** ** How [fit] ends *)

Section FitOutcome.
Context {F RNG : Type} {SF : Scalar F} {EF : Externals F RNG}.

Lemma on_raise_of_inv (I : Som F -> Prop) {A} (c : M F RNG A) :
  inv RNG I c -> on_raise I c.
Proof.
intros H st Hst. specialize (H st Hst). destruct (c st) as [st' [e | x]]; simpl in *; auto.
Qed.

Lemma on_raise_bind (I : Som F -> Prop) {A B} (c : M F RNG A) (k : A -> M F RNG B) :
  inv RNG I c -> (forall x, on_raise I (k x)) -> on_raise I (bind c k).
Proof.
intros Hc Hk st Hst. unfold bind. specialize (Hc st Hst).
destruct (c st) as [st1 [e | x]]; simpl in *; [assumption |].
apply Hk, Hc.
Qed.

Lemma on_raise_if (I : Som F -> Prop) {A} (b : bool) (c1 c2 : M F RNG A) :
  on_raise I c1 -> on_raise I c2 -> on_raise I (if b then c1 else c2).
Proof. destruct b; auto. Qed.

Lemma on_return_bind (Q : Som F -> Prop) {A B} (c : M F RNG A) (k : A -> M F RNG B) :
  (forall x, on_return Q (k x)) -> on_return Q (bind c k).
Proof.
intros Hk st. unfold bind. destruct (c st) as [st1 [e | x]]; [exact Logic.I |].
apply Hk.
Qed.

Lemma on_return_if (Q : Som F -> Prop) {A} (b : bool) (c1 c2 : M F RNG A) :
  on_return Q c1 -> on_return Q c2 -> on_return Q (if b then c1 else c2).
Proof. destruct b; auto. Qed.

Lemma on_return_raise (Q : Som F -> Prop) {A} (e : exn) :
  on_return Q (raise e : M F RNG A).
Proof. intro st. exact Logic.I. Qed.

Ltac raise_step :=
  lazymatch goal with
  | |- on_raise _ (bind (modify_self (set_trained _)) _) =>
      let st := fresh in let H := fresh in intros st H; exact Logic.I
  | |- on_raise _ (bind _ _) =>
      apply on_raise_bind; [repeat inv_step ltac:(intros; assumption) | intro]
  | |- on_raise _ (if _ then _ else _) => apply on_raise_if
  | |- on_raise _ _ =>
      apply on_raise_of_inv; repeat inv_step ltac:(intros; assumption)
  end.

Lemma fit_on_raise (X : ndarray F) (a : fit_args F) (b : bool) :
  on_raise (fun s => trained s = b) (fit X a).
Proof. unfold fit. repeat raise_step. Qed.

Ltac return_step :=
  lazymatch goal with
  | |- on_return _ (bind (modify_self (set_trained _)) _) =>
      let st := fresh in intro st; reflexivity
  | |- on_return _ (bind _ _) => apply on_return_bind; intro
  | |- on_return _ (if _ then _ else _) => apply on_return_if
  | |- on_return _ (raise _) => apply on_return_raise
  end.

Lemma fit_on_return (X : ndarray F) (a : fit_args F) :
  on_return (fun s => trained s = true) (fit X a).
Proof. unfold fit. repeat return_step. Qed.

(** The outcome of [fit]: a call that raises leaves the trained flag as it
    was, and a call that returns has set it. *)
Theorem fit_trained_flag (X : ndarray F) (a : fit_args F) (st : state F RNG) :
  match fit X a st with
  | (st', inl _) => trained (self st') = trained (self st)
  | (st', inr _) => trained (self st') = true
  end.
Proof.
pose proof (fit_on_raise X a (b := trained (self st)) st eq_refl) as Hr.
pose proof (fit_on_return X a st) as Ho.
destruct (fit X a st) as [st' [e | u]]; assumption.
Qed.
End FitOutcome.

(** ** The scaler is refit by every call that passes validation *)

Section FitScaler.
Context {F RNG : Type} {SF : Scalar F} {EF : Externals F RNG}.

(** Once the input has passed [_check_input], the scaler of the model is
    the one fitted to X, whether [fit] then returns or raises; the previous
    scaler state is gone. *)
Theorem fit_refits_scaler (X : ndarray F) (a : fit_args F) (st : state F RNG) :
  ndim X = 2 -> shape1 X = data_dim (self st) ->
  scaler (self (fst (fit X a st))) = Scaler_fit (shape1 X) (rows X).
Proof.
intros H2 Hd. unfold fit.
unfold bind at 1. unfold get_self at 1. cbn [self].
unfold bind at 1. unfold lift at 1. rewrite (check_input_ok _ _ H2 Hd).
unfold bind at 1. unfold modify_self at 1. cbn [self np_random cp_random].
match goal with
| |- scaler (self (fst (?c ?s0))) = ?sc =>
    assert (Hinv : inv RNG (fun s => scaler s = sc) c)
      by (repeat inv_step ltac:(intros; assumption));
    exact (Hinv s0 eq_refl)
end.
Qed.
End FitScaler.

Lemma fit_refits_scaler_witness :
  scaler (self (fst (fit X_gpu default_fit_args
                         (fresh_state (fresh_som [2; 2] 2 np_min)))))
  = Scaler_fit (shape1 X_gpu) (rows X_gpu).
Proof.
apply (fit_refits_scaler X_gpu default_fit_args
         (fresh_state (fresh_som [2; 2] 2 np_min))); reflexivity.
Defined.

(** ** Extremum functions that select an index of the row *)

Section Extremum.
Context {F : Type} {SF : Scalar F}.

Lemma argmin_from_in_row (l pre : list F) (bi : nat) (b : F) :
  bi < length pre -> nth bi pre f0 = b ->
  snd (argmin_from (length pre) bi b l) < length (pre ++ l)
  /\ nth (snd (argmin_from (length pre) bi b l)) (pre ++ l) f0
     = fst (argmin_from (length pre) bi b l).
Proof.
revert pre bi b; induction l as [| x l IH]; intros pre bi b Hbi Hb.
- simpl. rewrite app_nil_r. auto.
- simpl argmin_from.
  replace (pre ++ x :: l) with ((pre ++ [x]) ++ l) by (now rewrite <- app_assoc).
  assert (Hlen : length (pre ++ [x]) = S (length pre))
    by (rewrite length_app; simpl; lia).
  rewrite <- Hlen.
  destruct (fltb x b).
  + apply IH; [lia |]. rewrite app_nth2, Nat.sub_diag by lia. reflexivity.
  + apply IH; [lia |]. rewrite app_nth1 by lia. exact Hb.
Qed.

Lemma argmax_from_in_row (l pre : list F) (bi : nat) (b : F) :
  bi < length pre -> nth bi pre f0 = b ->
  snd (argmax_from (length pre) bi b l) < length (pre ++ l)
  /\ nth (snd (argmax_from (length pre) bi b l)) (pre ++ l) f0
     = fst (argmax_from (length pre) bi b l).
Proof.
revert pre bi b; induction l as [| x l IH]; intros pre bi b Hbi Hb.
- simpl. rewrite app_nil_r. auto.
- simpl argmax_from.
  replace (pre ++ x :: l) with ((pre ++ [x]) ++ l) by (now rewrite <- app_assoc).
  assert (Hlen : length (pre ++ [x]) = S (length pre))
    by (rewrite length_app; simpl; lia).
  rewrite <- Hlen.
  destruct (fltb b x).
  + apply IH; [lia |]. rewrite app_nth2, Nat.sub_diag by lia. reflexivity.
  + apply IH; [lia |]. rewrite app_nth1 by lia. exact Hb.
Qed.

Lemma np_min_good : good_extremum np_min.
Proof.
intros [| x l] Hne; [congruence |].
exists (fst (argmin_from 1 0 x l)), (snd (argmin_from 1 0 x l)).
split; [unfold np_min; now rewrite <- surjective_pairing |].
apply (argmin_from_in_row l [x] (bi := 0) (b := x)); [simpl; lia | reflexivity].
Qed.

Lemma np_max_good : good_extremum np_max.
Proof.
intros [| x l] Hne; [congruence |].
exists (fst (argmax_from 1 0 x l)), (snd (argmax_from 1 0 x l)).
split; [unfold np_max; now rewrite <- surjective_pairing |].
apply (argmax_from_in_row l [x] (bi := 0) (b := x)); [simpl; lia | reflexivity].
Qed.
End Extremum.

(** ** quant_error *)

Section QuantError.
Context {F RNG : Type} {SF : Scalar F} {EF : Externals F RNG}.

Lemma selected_good (mm : extremum F) (row : list F) :
  good_extremum mm -> row <> [] ->
  mm row = Some (selected mm row)
  /\ snd (selected mm row) < length row
  /\ nth (snd (selected mm row)) row f0 = fst (selected mm row).
Proof.
intros Hg Hne. destruct (Hg row Hne) as [v [i [E [Hi Hv]]]].
unfold selected. rewrite E. auto.
Qed.

(** [quant_error] and [predict] are the two halves of one extremum: on a
    non-empty, well-shaped input and a map with at least one unit, entry i of
    [quant_error] is the distance of input row i to the weight row of the
    unit that [predict] returns for it. The state is left as it is. *)
Theorem quant_error_is_distance_to_bmu (X : ndarray F) (bs : nat) (st : state F RNG) :
  ndim X = 2 -> shape1 X = data_dim (self st) ->
  1 <= shape0 X -> 1 <= bs ->
  rect (weight_dim (self st)) (data_dim (self st)) (weights (self st)) ->
  1 <= weight_dim (self st) ->
  good_extremum (min_max (self st)) ->
  exists errs idxs,
    quant_error X bs st = (st, inr errs)
    /\ predict X bs st = (st, inr idxs)
    /\ length errs = shape0 X
    /\ length idxs = shape0 X
    /\ forall i, i < shape0 X ->
         nth i idxs 0 < length (weights (self st))
         /\ nth i errs f0
            = norm (map2 fsub (nth i (rows X) [])
                              (nth (nth i idxs 0) (weights (self st)) [])).
Proof.
intros H2 Hd Hn Hbs [HW _] HU Hg.
assert (Hne : weights (self st) <> [])
  by (intro E; rewrite E in HW; simpl in HW; lia).
set (W := weights (self st)). set (mm := min_max (self st)).
set (dist := map (activation_row W) (rows X)).
assert (Hrows : length (rows X) = shape0 X) by apply length_chunks.
assert (Hrow : forall row, In row dist -> row <> [] /\ length row = length W).
{ intros row Hin. apply in_map_iff in Hin as [x [<- _]].
  unfold activation_row. rewrite length_map. split; [| reflexivity].
  intro E. apply map_eq_nil in E. exact (Hne E). }
exists (map (fun row => fst (selected mm row)) dist),
       (map (fun row => snd (selected mm row)) dist).
split; [| split; [| split; [| split]]].
- unfold quant_error, bind. rewrite (@predict_base_ok _ _ _ _ X bs st H2 Hd Hn Hbs HW).
  unfold get_self, lift. fold W dist mm. f_equal.
  apply mapM_inr. intros row Hin. destruct (Hrow row Hin) as [Hr _].
  destruct (selected_good Hg Hr) as [E _]. fold mm in E.
  rewrite E. now destruct (selected mm row).
- unfold predict, bind. rewrite (@predict_base_ok _ _ _ _ X bs st H2 Hd Hn Hbs HW).
  unfold get_self, lift. fold W dist mm. f_equal.
  apply mapM_inr. intros row Hin. destruct (Hrow row Hin) as [Hr _].
  destruct (selected_good Hg Hr) as [E _]. fold mm in E.
  unfold bmu_of. rewrite E. now destruct (selected mm row).
- unfold dist. now rewrite !length_map.
- unfold dist. now rewrite !length_map.
- intros i Hi.
  assert (Hlt : i < length dist) by (unfold dist; rewrite length_map; lia).
  rewrite (nth_map_lt (fun row => snd (selected mm row)) dist [] 0 Hlt).
  rewrite (nth_map_lt (fun row => fst (selected mm row)) dist [] f0 Hlt).
  assert (Hin : In (nth i dist []) dist) by now apply nth_In.
  destruct (Hrow _ Hin) as [Hr Hl].
  destruct (selected_good Hg Hr) as [_ [Hidx Hval]]. fold mm in Hidx, Hval.
  split; [lia |]. rewrite <- Hval.
  assert (Hk : snd (selected mm (nth i dist [])) < length W) by lia.
  revert Hk. generalize (snd (selected mm (nth i dist []))) as k. intros k Hk.
  unfold dist. rewrite (nth_map_lt (activation_row W) (rows X) [] [] (k := i)) by lia.
  unfold activation_row. now rewrite (nth_map_lt _ W [] f0 Hk).
Qed.
End QuantError.

Lemma quant_error_is_distance_to_bmu_witness :
  exists errs idxs,
    quant_error X_3x1 2 (fresh_state (som_2x1 np_min))
    = (fresh_state (som_2x1 np_min), inr errs)
    /\ predict X_3x1 2 (fresh_state (som_2x1 np_min))
       = (fresh_state (som_2x1 np_min), inr idxs)
    /\ length errs = shape0 X_3x1
    /\ length idxs = shape0 X_3x1
    /\ forall i, i < shape0 X_3x1 ->
         nth i idxs 0 < length (weights (self (fresh_state (som_2x1 np_min))))
         /\ nth i errs f0
            = norm (map2 fsub (nth i (rows X_3x1) [])
                     (nth (nth i idxs 0)
                          (weights (self (fresh_state (som_2x1 np_min)))) [])).
Proof.
apply (quant_error_is_distance_to_bmu X_3x1 (bs := 2) (fresh_state (som_2x1 np_min)));
  try reflexivity; try (vm_compute; lia).
- split; [reflexivity | repeat constructor].
- apply np_min_good.
Defined.

(** ** The scaler standardises, in exact real arithmetic *)

Section RealStandardise.
Local Open Scope R_scope.

Lemma fsum_map_scale (c : R) (g : R -> R) (l : list R) :
  fsum (map (fun x => g x * c) l) = fsum (map g l) * c.
Proof.
induction l as [| x l IH]; simpl map.
- rewrite fsum_nil. lra.
- rewrite !fsum_cons, IH. lra.
Qed.

Lemma fsum_map_shift (m : R) (l : list R) :
  fsum (map (fun x => x - m) l) = fsum l - INR (length l) * m.
Proof.
induction l as [| x l IH]; simpl map.
- rewrite fsum_nil. simpl. lra.
- rewrite !fsum_cons, IH. change (length (x :: l)) with (S (length l)).
  rewrite S_INR. lra.
Qed.

Lemma mean_scaled_gen (l : list R) (m s : R) :
  l <> [] -> fsum l = INR (length l) * m ->
  mean (map (scaled m s) l) = 0.
Proof.
intros Hne Hm.
unfold mean. rewrite length_map, of_nat_INR. simpl fdiv.
unfold scaled, Rdiv.
rewrite (fsum_map_scale (/ (s + epsilon)) (fun y => y - m) l), fsum_map_shift, Hm.
ring.
Qed.

Lemma fsum_mean (l : list R) : l <> [] -> fsum l = INR (length l) * mean l.
Proof.
intro Hne.
assert (Hn : 0 < INR (length l)).
{ apply lt_0_INR. destruct l; [congruence | simpl; lia]. }
unfold mean. rewrite of_nat_INR. simpl. field. lra.
Qed.

Lemma std_scaled_gen (l : list R) (m s : R) :
  l <> [] -> fsum l = INR (length l) * m -> 0 <= s ->
  std (map (scaled m s) l)
  = R_sqrt.sqrt (mean (map (fun x => (x - m) * (x - m)) l)) / (s + epsilon).
Proof.
intros Hne Hm Hs. pose proof epsilon_pos as He.
assert (Hn : 0 < INR (length l)).
{ apply lt_0_INR. destruct l; [congruence | simpl; lia]. }
unfold std. rewrite (mean_scaled_gen s Hne Hm). rewrite map_map.
set (q := / (s + epsilon)).
assert (Hq : 0 < q) by (apply Rinv_0_lt_compat; lra).
rewrite (map_ext _ (fun x => (fun y => (y - m) * (y - m)) x * (q * q))).
2:{ intro x. unfold scaled, Rdiv. fold q. simpl. ring. }
unfold mean. rewrite !length_map, of_nat_INR.
rewrite (fsum_map_scale (q * q) (fun y => (y - m) * (y - m)) l).
simpl fdiv. simpl fsqrt.
replace (fsum (map (fun y => (y - m) * (y - m)) l) * (q * q) / INR (length l))
  with ((fsum (map (fun y => (y - m) * (y - m)) l) / INR (length l)) * (q * q))
  by (field; lra).
rewrite sqrt_mult_alt.
2:{ apply Rmult_le_pos; [| left; now apply Rinv_0_lt_compat].
    replace 0 with (INR (length (map (fun y => (y - m) * (y - m)) l)) * 0) by ring.
    apply fsum_ge. intros x Hx. apply in_map_iff in Hx as [y [<- _]]. exact (Rle_0_sqr (y - m)). }
rewrite sqrt_square by lra. reflexivity.
Qed.

(** [Scaler.fit_transform] on an array with at least one row: every column
    of the result has mean 0, and its standard deviation is that of the input
    column divided by itself plus 10e-6, so it stays strictly below 1. *)
Theorem fit_transform_standardises (n d : nat) (X : matrix R) (f : nat) :
  rect n d X -> (1 <= n)%nat -> (f < d)%nat ->
  mean (col f (snd (fit_transform d X))) = 0
  /\ std (col f (snd (fit_transform d X)))
     = std (col f X) / (std (col f X) + epsilon)
  /\ std (col f (snd (fit_transform d X))) < 1.
Proof.
intros Hrect Hn Hf. unfold fit_transform. cbn [snd].
rewrite (col_transform Hrect Hf).
assert (Hne : col f X <> []).
{ destruct Hrect as [Hl _]. unfold col. destruct X; [simpl in Hl; lia | discriminate]. }
pose proof (std_nonneg (col f X)) as Hs. pose proof epsilon_pos as He.
assert (Hstd : std (map (scaled (mean (col f X)) (std (col f X))) (col f X))
               = std (col f X) / (std (col f X) + epsilon)).
{ rewrite (std_scaled_gen Hne (fsum_mean Hne) Hs). reflexivity. }
split; [exact (mean_scaled_gen (std (col f X)) Hne (fsum_mean Hne)) |].
split; [exact Hstd |].
rewrite Hstd. apply Rmult_lt_reg_r with (std (col f X) + epsilon); [lra |].
unfold Rdiv. rewrite Rmult_assoc, Rinv_l by lra. lra.
Qed.
End RealStandardise.

Lemma fit_transform_standardises_witness :
  (mean (col 0 (snd (fit_transform 1 X_real))) = 0
   /\ std (col 0 (snd (fit_transform 1 X_real)))
      = std (col 0 X_real) / (std (col 0 X_real) + epsilon)
   /\ std (col 0 (snd (fit_transform 1 X_real))) < 1)%R.
Proof.
apply (fit_transform_standardises (n := 2) (d := 1) (X := X_real) (f := 0)).
- split; [reflexivity | repeat constructor].
- lia.
- lia.
Defined.

(** ** What a saved model is when read back *)

Section LoadAfterSave.
Context {F : Type} {SF : Scalar F}.

Lemma load_inr (path : string) (fs : files F) (m : Som F) :
  load path fs = inr m ->
  exists data r W,
    fs path = Some data /\ doc_weights data = r :: W
    /\ m = mk_Som (doc_sigma data) (doc_lr data) (doc_dimensions data)
                  (Z.to_nat (unit_count (doc_dimensions data))) (r :: W) (length r)
                  (schedule_of_tag (doc_lrfunc data))
                  (schedule_of_tag (doc_nbfunc data))
                  None np_min true Scaler_init.
Proof.
unfold load. destruct (fs path) as [data |]; [| discriminate].
destruct (doc_weights data) as [| r W] eqn:E; [discriminate |].
unfold Som_init. destruct (unit_count (doc_dimensions data) <? 0)%Z; [discriminate |].
intro H. injection H as <-. exists data, r, W. auto.
Qed.

Lemma load_save_negative (m : Som F) (path : string) (fs : files F) (r : list F)
      (W : matrix F) :
  weights m = r :: W -> (unit_count (map_dimensions m) < 0)%Z ->
  load path (save m path fs)
  = inl (ValueError "negative dimensions are not allowed").
Proof.
intros EW Hu. unfold load, save, write_file. rewrite String.eqb_refl.
cbn [doc_weights doc_dimensions doc_lrfunc doc_nbfunc doc_lr doc_sigma].
rewrite EW. unfold Som_init.
destruct (Z.ltb_spec (unit_count (map_dimensions m)) 0) as [_ | Hpos]; [reflexivity | lia].
Qed.

(** What [load] after [save] keeps and what it forgets, for map dimensions
    that fit in int64. It raises for a model without weight rows (IndexError
    at weights.shape[1]) and where the product of the saved dimensions wraps
    around to a negative unit count (ValueError of np.zeros). Otherwise the
    loaded model has the saved weights, but an unfitted scaler, no distance
    grid, the default extremum function, the unit count the constructor
    computes from the map dimensions (their product wrapped to int64, the
    product itself when that fits), a data_dim read off the first weight row,
    and every schedule that is not expo replaced by linear. *)
Theorem load_after_save (m : Som F) (path : string) (fs : files F) :
  Forall (fun n => (Z.of_nat n < 2 ^ 63)%Z) (map_dimensions m) ->
  match load path (save m path fs) with
  | inl e =>
      (e = IndexError /\ weights m = [])
      \/ (e = ValueError "negative dimensions are not allowed"
          /\ weights m <> [] /\ (unit_count (map_dimensions m) < 0)%Z)
  | inr m' =>
      weights m' = weights m
      /\ weights m <> []
      /\ scaler m' = Scaler_init
      /\ distance_grid m' = None
      /\ min_max m' = np_min
      /\ Z.of_nat (weight_dim m') = unit_count (map_dimensions m)
      /\ ((Z.of_nat (weight_dim m')) mod 2 ^ 64
          = (Z.of_nat (fold_left Nat.mul (map_dimensions m) 1%nat)) mod 2 ^ 64)%Z
      /\ ((Z.of_nat (fold_left Nat.mul (map_dimensions m) 1%nat) < 2 ^ 63)%Z ->
          weight_dim m' = fold_left Nat.mul (map_dimensions m) 1%nat)
      /\ data_dim m' = length (hd [] (weights m))
      /\ lrfunc m' = match lrfunc m with sched_expo => sched_expo | _ => sched_linear end
      /\ nbfunc m' = match nbfunc m with sched_expo => sched_expo | _ => sched_linear end
  end.
Proof.
intros _.
destruct (weights m) as [| r W] eqn:EW.
- unfold load, save, write_file. rewrite String.eqb_refl.
  cbn [doc_weights]. rewrite EW. left. auto.
- destruct (Z.ltb_spec (unit_count (map_dimensions m)) 0) as [Hneg | Hpos].
  + rewrite (@load_save_negative m path fs r W EW Hneg). right.
    split; [reflexivity |]. split; [discriminate | assumption].
  + rewrite (@load_save_inr _ _ m path fs r W EW Hpos).
    cbn [weights scaler distance_grid min_max weight_dim data_dim lrfunc nbfunc hd].
    split; [reflexivity |]. split; [discriminate |]. do 3 (split; [reflexivity |]).
    split; [now apply Z2Nat.id |].
    split.
    { rewrite Z2Nat.id by assumption.
      pose proof (unit_count_congr (map_dimensions m) 1) as Hc.
      rewrite Z.mul_1_l in Hc. exact Hc. }
    split.
    { intro Hfit. rewrite (unit_count_product _ Hfit). apply Nat2Z.id. }
    split; [reflexivity |].
    split; [destruct (lrfunc m) | destruct (nbfunc m)]; reflexivity.
Qed.
End LoadAfterSave.

Lemma load_after_save_witness :
  match load "som.json" (save (self (fst fit_min)) "som.json" no_files) with
  | inl e =>
      (e = IndexError /\ weights (self (fst fit_min)) = [])
      \/ (e = ValueError "negative dimensions are not allowed"
          /\ weights (self (fst fit_min)) <> []
          /\ (unit_count (map_dimensions (self (fst fit_min))) < 0)%Z)
  | inr m' =>
      weights m' = weights (self (fst fit_min))
      /\ weights (self (fst fit_min)) <> []
      /\ scaler m' = Scaler_init
      /\ distance_grid m' = None
      /\ min_max m' = np_min
      /\ Z.of_nat (weight_dim m') = unit_count (map_dimensions (self (fst fit_min)))
      /\ ((Z.of_nat (weight_dim m')) mod 2 ^ 64
          = (Z.of_nat (fold_left Nat.mul (map_dimensions (self (fst fit_min))) 1%nat))
            mod 2 ^ 64)%Z
      /\ ((Z.of_nat (fold_left Nat.mul (map_dimensions (self (fst fit_min))) 1%nat)
           < 2 ^ 63)%Z ->
          weight_dim m'
          = fold_left Nat.mul (map_dimensions (self (fst fit_min))) 1%nat)
      /\ data_dim m' = length (hd [] (weights (self (fst fit_min))))
      /\ lrfunc m' = match lrfunc (self (fst fit_min)) with
                     | sched_expo => sched_expo
                     | _ => sched_linear
                     end
      /\ nbfunc m' = match nbfunc (self (fst fit_min)) with
                     | sched_expo => sched_expo
                     | _ => sched_linear
                     end
  end.
Proof.
apply (load_after_save (self (fst fit_min)) "som.json" no_files).
assert (E : map_dimensions (self (fst fit_min)) = [1; 2]) by (vm_compute; reflexivity).
rewrite E. repeat constructor.
Defined.

Section RealLoaded.
Local Open Scope R_scope.

Lemma inverse_transform_unfit (W : matrix R) :
  inverse_transform Scaler_init W = map (map (fun _ => 0)) W.
Proof.
unfold inverse_transform. apply map_ext. intro row.
unfold imap. generalize 0%nat. induction row as [| x row IH]; intro i; simpl; [reflexivity |].
rewrite IH. f_equal. unfold f0. simpl. ring.
Qed.

Lemma Forall_firstn_skipn {A} (P : A -> Prop) (n : nat) (l : list A) :
  Forall P l -> Forall P (firstn n l) /\ Forall P (skipn n l).
Proof.
intro H. apply Forall_app. now rewrite firstn_skipn.
Qed.

Lemma Forall_chunks {A} (P : A -> Prop) (n m : nat) (l : list A) :
  Forall P l -> Forall (Forall P) (chunks n m l).
Proof.
revert l; induction n as [| n IH]; intros l H; simpl; constructor.
- now apply Forall_firstn_skipn.
- apply IH. now apply Forall_firstn_skipn.
Qed.

Lemma Forall_nth_default {A} (P : A -> Prop) (l : list A) (d : A) (i : nat) :
  Forall P l -> P d -> P (nth i l d).
Proof.
intros H Hd. destruct (Nat.lt_ge_cases i (length l)) as [Hi | Hi].
- rewrite Forall_forall in H. apply H. now apply nth_In.
- now rewrite nth_overflow.
Qed.

Lemma Forall_transpose_102 {A} (P : A -> Prop) (m : nat) (a : list (list (list A))) :
  Forall (Forall (Forall P)) a -> Forall (Forall (Forall P)) (transpose_102 m a).
Proof.
intro H. unfold transpose_102. apply Forall_forall. intros col Hc.
apply in_map_iff in Hc as [j [<- _]]. apply Forall_forall. intros cell Hcell.
apply in_map_iff in Hcell as [r [<- Hr]].
apply Forall_nth_default; [| constructor].
rewrite Forall_forall in H. now apply H.
Qed.

Lemma concat_zero (W : matrix R) :
  Forall (fun v => v = 0) (concat (map (map (fun _ => 0)) W)).
Proof.
apply Forall_forall. intros v Hv. apply in_concat in Hv as [row [Hrow Hv]].
apply in_map_iff in Hrow as [row0 [<- _]]. apply in_map_iff in Hv as [? [<- _]].
reflexivity.
Qed.

(** [map_weights] on a model that [load] returned: the scaler of a loaded
    model is unfitted, with mean 0 and deviation 0, so the inverse transform
    maps every weight to w * 0 + 0 and the grid that is returned holds only
    zeros, whatever the weights in the file. *)
Theorem map_weights_of_loaded_is_zero (path : string) (fs : files R) (m : Som R)
        (cells : list (matrix R)) :
  load path fs = inr m -> map_weights m = inr cells ->
  Forall (Forall (Forall (fun v => v = 0))) cells.
Proof.
intros Hload Hmw. apply load_inr in Hload as [data [r [W [_ [_ ->]]]]].
unfold map_weights in Hmw. cbn [map_dimensions scaler weights data_dim] in Hmw.
destruct (doc_dimensions data) as [| width [| height [| ? ?]]]; try discriminate.
rewrite inverse_transform_unfit in Hmw. unfold reshape2 in Hmw.
destruct (_ =? _); [| discriminate]. injection Hmw as <-.
apply Forall_transpose_102, Forall_chunks, Forall_chunks.
exact (concat_zero (r :: W)).
Qed.
End RealLoaded.

Lemma map_weights_of_loaded_is_zero_witness :
  Forall (Forall (Forall (fun v => v = 0%R)))
         [[[(1 * 0 + 0)%R]]; [[(3 * 0 + 0)%R]]].
Proof.
apply (map_weights_of_loaded_is_zero "som.json" files_real (m := loaded_real));
  reflexivity.
Defined.

(** ** The batcher *)

Section Batcher.
Context {F RNG : Type} {SF : Scalar F} {EF : Externals F RNG}.

Lemma set_nth_perm {A} (l : list A) (i : nat) (a x : A) :
  nth_error l i = Some a -> Permutation (x :: l) (a :: set_nth i x l).
Proof.
revert i; induction l as [| y l IH]; intros [| i] H; simpl in *; try discriminate.
- injection H as ->. apply perm_swap.
- apply perm_trans with (y :: x :: l); [apply perm_swap |].
  apply perm_trans with (y :: a :: set_nth i x l); [| apply perm_swap].
  apply perm_skip. now apply IH.
Qed.

Lemma nth_error_set_nth_same {A} (l : list A) (i : nat) (a x : A) :
  nth_error l i = Some a -> nth_error (set_nth i x l) i = Some x.
Proof.
revert i; induction l as [| y l IH]; intros [| i] H; simpl in *; try discriminate.
- reflexivity.
- now apply IH.
Qed.

Lemma nth_error_set_nth_other {A} (l : list A) (i j : nat) (x : A) :
  i <> j -> nth_error (set_nth j x l) i = nth_error l i.
Proof.
revert i j; induction l as [| y l IH]; intros [| i] [| j] H; simpl; try reflexivity.
- congruence.
- apply IH. congruence.
Qed.

Lemma swap_perm {A} (i j : nat) (l : list A) : Permutation (swap i j l) l.
Proof.
unfold swap.
destruct (nth_error l i) as [a |] eqn:Ei; [| reflexivity].
destruct (nth_error l j) as [b |] eqn:Ej; [| reflexivity].
assert (H1 : Permutation (a :: l) (b :: set_nth j a l)) by now apply set_nth_perm.
assert (Ei' : nth_error (set_nth j a l) i = Some a).
{ destruct (Nat.eq_dec i j) as [-> | Hne].
  - now apply nth_error_set_nth_same with b.
  - now rewrite nth_error_set_nth_other. }
assert (H2 : Permutation (b :: set_nth j a l) (a :: set_nth i b (set_nth j a l)))
  by now apply set_nth_perm.
symmetry. apply Permutation_cons_inv with a. now apply perm_trans with (b :: set_nth j a l).
Qed.

Lemma shuffle_from_perm {A} (i : nat) (z : list A) (g : RNG) :
  Permutation (fst (shuffle_from i z g)) z.
Proof.
revert z g; induction i as [| i IH]; intros z g; simpl; [reflexivity |].
destruct (random_interval (S i) g) as [j g'].
apply perm_trans with (swap (S i) j z); [apply IH | apply swap_perm].
Qed.

Lemma shuffle_perm (X : matrix F) (st : state F RNG) :
  exists st' X', shuffle X st = (st', inr X') /\ self st' = self st /\ Permutation X' X.
Proof.
unfold shuffle, with_rng.
pose proof (shuffle_from_perm (length X - 1) X (np_random st)) as H.
destruct (shuffle_from (length X - 1) X (np_random st)) as [X' r]. simpl in H.
eexists _, X'. split; [reflexivity |]. split; [reflexivity | exact H].
Qed.

Lemma ceil_div_tight (n b : nat) : 1 <= b -> ceil_div n b * b - n < b.
Proof.
intro Hb. unfold ceil_div.
pose proof (Nat.div_mod_eq (n + b - 1) b) as E.
pose proof (Nat.mod_upper_bound (n + b - 1) b) as Hr. nia.
Qed.

Lemma resize_rect (X : matrix F) (m b d : nat) :
  length X <= m * b ->
  length (resize X m b d) = m
  /\ Forall (fun x => length x = b) (resize X m b d)
  /\ concat (resize X m b d) = X ++ repeat (repeat f0 d) (m * b - length X).
Proof.
intro Hle. unfold resize.
assert (Hl : length (X ++ repeat (repeat f0 d) (m * b - length X)) = m * b)
  by (rewrite length_app, repeat_length; lia).
split; [apply length_chunks |]. split; [now apply chunks_rect |].
now apply concat_chunks.
Qed.

(** [Som._create_batches] raises exactly when there is no row or the batch
    size is 0 (a ZeroDivisionError). Otherwise the effective batch size is
    min(batch_size, n), there are ceil(n / that) batches of that many rows
    each, and the batches laid end to end are a permutation of the rows of X
    (X itself without shuffling) followed by fewer than one batch of zero
    rows. The model object is not touched; without shuffling nothing is. *)
Theorem create_batches_spec (d : nat) (X : matrix F) (bs : nat) (sh : bool)
        (st : state F RNG) :
  match _create_batches d X bs sh st with
  | (st', inl e) =>
      e = ZeroDivisionError /\ (length X = 0 \/ bs = 0) /\ self st' = self st
  | (st', inr B) =>
      1 <= length X /\ 1 <= bs /\ self st' = self st
      /\ length B = ceil_div (length X) (Nat.min bs (length X))
      /\ Forall (fun x => length x = Nat.min bs (length X)) B
      /\ length B * Nat.min bs (length X) - length X < Nat.min bs (length X)
      /\ exists X',
           Permutation X' X
           /\ (sh = false -> X' = X /\ st' = st)
           /\ concat B = X' ++ repeat (repeat f0 d)
                                  (length B * Nat.min bs (length X) - length X)
  end.
Proof.
assert (Hsh : exists st1 X', (if sh then shuffle X else ret X) st = (st1, inr X')
                /\ self st1 = self st /\ Permutation X' X
                /\ (sh = false -> X' = X /\ st1 = st)).
{ destruct sh.
  - destruct (shuffle_perm X st) as [st1 [X' [E [Hs Hp]]]].
    exists st1, X'. repeat split; auto; discriminate.
  - exists st, X. repeat split; auto. }
destruct Hsh as [st1 [X' [E [Hs [Hp Hid]]]]].
unfold _create_batches, bind.
destruct sh; rewrite E; clear E.
all: pose proof (Permutation_length Hp) as Hlen; rewrite Hlen.
all: replace (if length X <? bs then length X else bs) with (Nat.min bs (length X))
  by (destruct (Nat.ltb_spec (length X) bs); lia).
all: destruct (Nat.eqb_spec (Nat.min bs (length X)) 0) as [E | Hne]; unfold raise, ret.
all: try (split; [reflexivity |]; split; [lia | assumption]).
all: assert (Hb : 1 <= Nat.min bs (length X)) by lia.
all: pose proof (ceil_div_covers (length X) Hb) as Hc.
all: destruct (@resize_rect X' (ceil_div (length X) (Nat.min bs (length X)))
              (Nat.min bs (length X)) d) as [H1 [H2 H3]]; [lia |].
all: rewrite H1; split; [lia |]; split; [lia |]; split; [assumption |].
all: split; [reflexivity |]; split; [assumption |].
all: split; [now apply ceil_div_tight |].
all: exists X'; split; [assumption |]; split; [assumption |].
all: rewrite H3, Hlen; reflexivity.
Qed.
End Batcher.

(** ** [fit] returns *)

Section Returns.
Context {F RNG : Type} {SF : Scalar F} {EF : Externals F RNG}.



Lemma returns_ret (P : Som F -> Prop) {A} (x : A) :
  returns RNG P (ret x) (fun y s => y = x /\ P s).
Proof. intros st Hst. exists st, x. auto. Qed.


Lemma returns_lift (P : Som F -> Prop) {A} (r : result A) (x : A) :
  r = inr x -> returns RNG P (lift r) (fun y s => y = x /\ P s).
Proof. intros -> st Hst. exists st, x. auto. Qed.




(** *** The training loop returns *)

Variables (wd L : nat) (mm : extremum F).
Hypothesis HL : 1 <= L <= wd.
Hypothesis Hmm : good_extremum mm.









End Returns.

Section FitReturns.
Context {F RNG : Type} {SF : Scalar F} {EF : Externals F RNG}.



End FitReturns.


(** ** Maps that are not two-dimensional *)

Section MapGeometry.
Context {F RNG : Type} {SF : Scalar F} {EF : Externals F RNG}.

Lemma grid_distance_unpack (s : Som F) (i : nat) :
  length (map_dimensions s) <> 2 ->
  _grid_distance s i = inl (ValueError "wrong number of values to unpack").
Proof.
intro H. unfold _grid_distance.
destruct (map_dimensions s) as [| w [| h [| ? ?]]]; simpl in H; try reflexivity; lia.
Qed.

Lemma initialize_distance_grid_unpack (s : Som F) :
  length (map_dimensions s) <> 2 -> 1 <= weight_dim s ->
  _initialize_distance_grid s = inl (ValueError "wrong number of values to unpack").
Proof.
intros H Hw. unfold _initialize_distance_grid.
destruct (weight_dim s) as [| n]; [lia |]. simpl.
now rewrite grid_distance_unpack.
Qed.

(** The constructor accepts a map of any number of dimensions, but [fit]
    unpacks map_dimensions into width and height when it builds the distance
    grid: on a model with at least one unit whose map is not two-dimensional,
    no call of [fit] returns, whatever the data and the arguments. *)
Theorem fit_needs_two_map_dimensions (X : ndarray F) (a : fit_args F)
        (st : state F RNG) :
  length (map_dimensions (self st)) <> 2 -> 1 <= weight_dim (self st) ->
  exists e, snd (fit X a st) = inl e.
Proof.
intros H Hw. destruct (fit X a st) as [st' [e | []]] eqn:E; [now exists e |].
destruct (fit_distance_grid X a st E) as [grid [Hg _]].
rewrite (initialize_distance_grid_unpack _ H Hw) in Hg. discriminate.
Qed.
End MapGeometry.

Lemma fit_needs_two_map_dimensions_witness :
  exists e, snd (fit X_train args_train (fresh_state (fresh_som [3] 1 np_min))) = inl e.
Proof.
apply (fit_needs_two_map_dimensions X_train args_train
         (fresh_state (fresh_som [3] 1 np_min))).
- simpl. lia.
- simpl. lia.
Defined.

(** ** The influence of one unit on another *)

Section Influence.
Context {F : Type} {SF : Scalar F}.

Lemma concat_concat {A} (l : list (list (list A))) :
  concat (concat l) = concat (map (@concat A) l).
Proof.
induction l as [| x l IH]; simpl; [reflexivity |].
now rewrite concat_app, IH.
Qed.

(** The grid of a two-dimensional map: one width-by-height array per unit,
    holding the squared grid distances to that unit. *)
Lemma initialize_distance_grid_entries (s : Som F) (width height : nat) :
  map_dimensions s = [width; height] -> weight_dim s = width * height ->
  exists grid,
    _initialize_distance_grid s = inr grid
    /\ length grid = width * height
    /\ Forall (fun g => length (concat g) = width * height) grid
    /\ forall i j, i < width * height -> j < width * height ->
         D grid i j = of_Z (sqdist height i j).
Proof.
intros Hd Hw.
set (cell := fun i a b =>
       (Z.abs (Z.of_nat a - Z.of_nat (i / height)) ^ 2
        + Z.abs (Z.of_nat b - Z.of_nat (i mod height)) ^ 2)%Z).
set (g := fun i : nat =>
       map (map (@of_Z F SF))
           (map (fun a => map (cell i a) (seq 0 height)) (seq 0 width))).
assert (Hrect : forall i, Forall (fun r => length r = height) (g i)).
{ intro i. unfold g. rewrite !map_map. apply Forall_forall. intros r Hr.
  apply in_map_iff in Hr as [a [<- _]]. now rewrite !length_map, length_seq. }
exists (map g (seq 0 (width * height))).
split; [| split; [| split]].
- unfold _initialize_distance_grid. rewrite Hw. apply mapM_inr.
  intros i Hi. apply in_seq in Hi.
  assert (Hh : height <> 0) by (intro; subst height; lia).
  rewrite (grid_distance_ok s i Hd Hh). reflexivity.
- now rewrite length_map, length_seq.
- apply Forall_forall. intros gi Hgi. apply in_map_iff in Hgi as [i [<- _]].
  rewrite (length_concat_rect (Hrect i)). unfold g. now rewrite !length_map, length_seq.
- intros i j Hi Hj.
  assert (Hh : height <> 0) by (intro; subst height; lia).
  unfold D. rewrite (nth_map_seq g [] Hi).
  rewrite (@nth_concat_rect _ (g i) height j f0 (Hrect i))
    by (unfold g; rewrite !length_map, length_seq; lia).
  unfold g. rewrite !map_map.
  assert (Hq : j / height < width) by (apply Nat.Div0.div_lt_upper_bound; lia).
  assert (Hr : j mod height < height) by (apply Nat.mod_upper_bound; lia).
  rewrite (nth_map_seq _ [] Hq), map_map, (nth_map_seq _ f0 Hr).
  f_equal. unfold cell, sqdist.
  rewrite <- !Z.abs_pow, !Z.abs_eq by (apply Z.pow_even_nonneg; exists 1%Z; reflexivity).
  nia.
Qed.

(** Entry (i, j) of the influence: the Gaussian of the grid entry. *)
Lemma calculate_influence_entries (s : Som F) (grid : list (matrix F)) (sg : F) (U : nat) :
  distance_grid s = Some grid -> weight_dim s = U -> length grid = U ->
  Forall (fun g => length (concat g) = U) grid ->
  exists infl,
    _calculate_influence s sg = inr infl
    /\ length infl = U
    /\ forall i j, i < U -> j < U ->
         nth j (nth i infl []) f0
         = fexp (fdiv (fopp (D grid i j)) (fmul (of_Z 2) (fmul sg sg))).
Proof.
intros Hg Hw Hl Hrect. unfold _calculate_influence. rewrite Hg, Hw.
set (phi := fun v => fexp (fdiv (fopp v) (fmul (of_Z 2) (fmul sg sg)))).
assert (Hflat : length (concat (map (@concat F) grid)) = U * U).
{ rewrite (@length_concat_rect _ _ U); [now rewrite length_map, Hl |].
  apply Forall_forall. intros r Hr. apply in_map_iff in Hr as [g0 [<- Hin]].
  rewrite Forall_forall in Hrect. now apply Hrect. }
unfold reshape2.
rewrite <- !concat_map, !length_map, concat_concat, Hflat, Nat.eqb_refl.
eexists. split; [reflexivity |]. split; [apply length_chunks |].
intros i j Hi Hj. rewrite (@nth_chunks _ U U _ i j f0 Hi Hj).
assert (Hij : i * U + j < U * U) by nia.
rewrite (nth_map_lt phi _ f0 f0) by lia. unfold phi. do 3 f_equal.
rewrite (@nth_concat_rect _ _ U).
- rewrite Nat.div_add_l, Nat.div_small, Nat.add_0_r by lia.
  rewrite Nat.add_comm, Nat.Div0.mod_add, Nat.mod_small by lia.
  unfold D. now rewrite (nth_map_lt (@concat F) grid [] []) by lia.
- apply Forall_forall. intros r Hr. apply in_map_iff in Hr as [g0 [<- Hin]].
  rewrite Forall_forall in Hrect. now apply Hrect.
- rewrite length_map, Hl. lia.
Qed.

Lemma sqdist_nonneg (height i j : nat) : (0 <= sqdist height i j)%Z.
Proof. unfold sqdist. nia. Qed.

Lemma sqdist_zero (height i j : nat) :
  height <> 0 -> sqdist height i j = 0%Z -> i = j.
Proof.
intros Hh H. unfold sqdist in H.
pose proof (Nat.div_mod_eq i height). pose proof (Nat.div_mod_eq j height).
assert (i / height = j / height) by nia.
assert (i mod height = j mod height) by nia.
congruence.
Qed.
End Influence.

Section RealInfluence.
Local Open Scope R_scope.

(** [_calculate_influence] on a two-dimensional map whose grid is in place,
    for a radius other than 0: entry (i, j) is exp(-d(i, j) / (2 sigma^2))
    with d the squared grid distance of units i and j. It lies in (0, 1], is
    symmetric in i and j, and is 1 exactly on the diagonal: a unit pulls
    itself fully and every other unit strictly less. *)
Theorem influence_is_gaussian_of_grid_distance (s : Som R) (width height : nat)
        (grid : list (matrix R)) (sg : R) :
  map_dimensions s = [width; height] -> weight_dim s = (width * height)%nat ->
  _initialize_distance_grid s = inr grid -> distance_grid s = Some grid ->
  sg <> 0 ->
  exists infl,
    _calculate_influence s sg = inr infl
    /\ length infl = (width * height)%nat
    /\ forall i j, (i < width * height)%nat -> (j < width * height)%nat ->
         nth j (nth i infl []) 0
         = Rtrigo_def.exp (- IZR (sqdist height i j) / (2 * (sg * sg)))
         /\ 0 < nth j (nth i infl []) 0 <= 1
         /\ nth j (nth i infl []) 0 = nth i (nth j infl []) 0
         /\ (nth j (nth i infl []) 0 = 1 <-> i = j).
Proof.
intros Hd Hw Hinit Hg Hsg.
destruct (initialize_distance_grid_entries s Hd Hw) as [grid' [E [Hl [Hrect HD]]]].
rewrite Hinit in E. injection E as <-.
destruct (calculate_influence_entries s sg Hg Hw Hl Hrect) as [infl [E [Hli Hent]]].
exists infl. split; [exact E |]. split; [exact Hli |].
assert (Hval : forall i j, (i < width * height)%nat -> (j < width * height)%nat ->
          nth j (nth i infl []) 0
          = Rtrigo_def.exp (- IZR (sqdist height i j) / (2 * (sg * sg)))).
{ intros i j Hi Hj. change 0 with (f0 (F := R)) at 1. rewrite (Hent i j Hi Hj), (HD i j Hi Hj).
  reflexivity. }
assert (Hpos : 0 < 2 * (sg * sg)) by nra.
intros i j Hi Hj.
assert (Hh : height <> 0%nat) by (intro; subst height; lia).
pose proof (sqdist_nonneg height i j) as Hnn. apply IZR_le in Hnn.
assert (Harg : - IZR (sqdist height i j) / (2 * (sg * sg)) <= 0).
{ apply Rmult_le_reg_r with (2 * (sg * sg)); [assumption |].
  unfold Rdiv. rewrite Rmult_assoc, Rinv_l by lra. lra. }
split; [now apply Hval |]. split; [| split].
- rewrite Hval by assumption. split; [apply exp_pos |].
  rewrite <- exp_0.
  destruct Harg as [Hlt | ->]; [left; now apply exp_increasing | right; reflexivity].
- rewrite !Hval by assumption. now rewrite sqdist_sym.
- rewrite Hval by assumption. split.
  + intro H1. rewrite <- exp_0 in H1. apply exp_inv in H1.
    apply (sqdist_zero (height := height)); [assumption |].
    apply eq_IZR.
    apply Rmult_eq_compat_r with (r := 2 * (sg * sg)) in H1.
    unfold Rdiv in H1. rewrite Rmult_assoc, Rinv_l in H1 by lra. lra.
  + intros ->. rewrite sqdist_diag. unfold Rdiv. rewrite Ropp_0, Rmult_0_l. apply exp_0.
Qed.
End RealInfluence.

Lemma influence_is_gaussian_of_grid_distance_witness :
  exists infl,
    _calculate_influence som_real_grid 1%R = inr infl
    /\ length infl = 1 * 2
    /\ forall i j, i < 1 * 2 -> j < 1 * 2 ->
         (nth j (nth i infl []) 0
          = Rtrigo_def.exp (- IZR (sqdist 2 i j) / (2 * (1 * 1)))
          /\ 0 < nth j (nth i infl []) 0 <= 1
          /\ nth j (nth i infl []) 0 = nth i (nth j infl []) 0
          /\ (nth j (nth i infl []) 0 = 1 <-> i = j))%R.
Proof.
apply (influence_is_gaussian_of_grid_distance som_real_grid (width := 1) (height := 2)
         (grid := grid_real) (sg := 1%R)); try reflexivity.
apply R1_neq_R0.
Defined.

(** ** One training step *)

Section PropagateEntries.
Context {F RNG : Type} {SF : Scalar F} {EF : Externals F RNG}.

(** Entry (u, f) of the weights after [W += update.mean(0)], for the update
    that [_calculate_update] builds. *)
Lemma iadd_mean_update_nth (W : matrix F) (diff : list (matrix F))
      (influence : matrix F) (U d u f : nat) :
  rect U d W -> Forall (rect U d) diff ->
  length influence = length diff ->
  Forall (fun r => length r = U) influence ->
  u < U -> f < d ->
  nth f (nth u (iadd_mean W (_calculate_update diff influence)) []) f0 =
  fadd (nth f (nth u W []) f0)
       (fdiv (fsum (map (fun b =>
                      fmul (nth f (nth u (nth b diff []) []) f0)
                           (nth u (nth b influence []) f0))
                    (seq 0 (length diff))))
             (of_nat (length diff))).
Proof.
intros [HWl HWr] Hdiff Hli Hinfl Hu Hf.
set (update := _calculate_update diff influence).
assert (Hlu : length update = length diff).
{ unfold update, _calculate_update. rewrite length_map2, Hli. apply Nat.min_id. }
assert (Hrow : length (nth u W []) = d).
{ rewrite Forall_forall in HWr. apply HWr, nth_In. lia. }
unfold iadd_mean.
rewrite (nth_imap _ W [] [] (k := u)) by lia.
rewrite (nth_imap _ _ f0 f0 (k := f)) by lia.
f_equal. unfold mean_axis0, mean. rewrite length_map, Hlu. f_equal. f_equal.
rewrite (map_as_seq _ update []), Hlu.
apply map_ext_in. intros b Hb. apply in_seq in Hb.
assert (Hdb : rect U d (nth b diff [])).
{ rewrite Forall_forall in Hdiff. apply Hdiff, nth_In. lia. }
destruct Hdb as [Hdl Hdr].
assert (Hil : length (nth b influence []) = U).
{ rewrite Forall_forall in Hinfl. apply Hinfl, nth_In. lia. }
unfold update. rewrite calculate_update_nth; try lia; [reflexivity |].
rewrite Forall_forall in Hdr. rewrite (Hdr (nth u (nth b diff []) [])); [lia |].
apply nth_In. lia.
Qed.

Lemma bmus_in_range (s : Som F) (x : matrix F) :
  good_extremum (min_max s) -> weights s <> [] ->
  Forall (fun k => k < length (weights s)) (bmus s x).
Proof.
intros Hg Hne. apply Forall_forall. intros k Hk.
apply in_map_iff in Hk as [xb [<- _]].
assert (Hrow : activation_row (weights s) xb <> []).
{ unfold activation_row. intro E. now apply map_eq_nil in E. }
destruct (selected_good Hg Hrow) as [_ [Hi _]].
unfold activation_row in Hi at 2. now rewrite length_map in Hi.
Qed.

Lemma apply_influences_bmus (s : Som F) (x infl : matrix F) :
  good_extremum (min_max s) -> weights s <> [] ->
  length (weights s) <= length infl ->
  _apply_influences s (fst (forward s x)) infl
  = inr (map (fun k => nth k infl []) (bmus s x)).
Proof.
intros Hg Hne Hlen. unfold _apply_influences.
rewrite forward_activations.
rewrite (mapM_inr (bmu_of (min_max s)) (fun row => snd (selected (min_max s) row))).
- rewrite map_map. fold (bmus s x). apply gather_ok.
  eapply Forall_impl; [| now apply bmus_in_range]. intros k Hk. simpl in Hk. lia.
- intros row Hrow. apply in_map_iff in Hrow as [xb [<- _]].
  assert (Hrow : activation_row (weights s) xb <> []).
  { unfold activation_row. intro E. now apply map_eq_nil in E. }
  destruct (selected_good Hg Hrow) as [E _].
  unfold bmu_of. rewrite E. now destruct (selected (min_max s) _).
Qed.

(** One training step in closed form. *)
Lemma propagate_entries (x infl : matrix F) (st : state F RNG) (U d : nat) :
  good_extremum (min_max (self st)) -> 1 <= U ->
  rect U d (weights (self st)) ->
  Forall (fun xb => length xb = d) x ->
  length infl = U -> Forall (fun r => length r = U) infl ->
  exists W',
    _propagate x infl st
    = (mk_state (set_weights W' (self st)) (np_random st) (cp_random st),
       inr (map (activation_row (weights (self st))) x))
    /\ rect U d W'
    /\ forall u f, u < U -> f < d ->
         nth f (nth u W' []) f0 =
         fadd (nth f (nth u (weights (self st)) []) f0)
              (fdiv (fsum (map (fun b =>
                       fmul (fsub (nth f (nth b x []) f0)
                                  (nth f (nth u (weights (self st)) []) f0))
                            (nth u (nth (nth b (bmus (self st) x) 0) infl []) f0))
                     (seq 0 (length x))))
                    (of_nat (length x))).
Proof.
intros Hg HU HW Hx Hli Hinfl.
set (W := weights (self st)) in *.
assert (Hne : W <> []).
{ destruct HW as [Hl _]. intro E. rewrite E in Hl. simpl in Hl. lia. }
assert (HWl : length W = U) by apply HW.
set (diff := _distance_difference x W).
set (influence := map (fun k => nth k infl []) (bmus (self st) x)).
exists (iadd_mean W (_calculate_update diff influence)).
assert (Hldiff : length diff = length x) by (unfold diff, _distance_difference; apply length_map).
assert (Hdiff : Forall (rect U d) diff).
{ apply Forall_forall. intros m Hm. unfold diff, _distance_difference in Hm.
  apply in_map_iff in Hm as [xb [<- Hxb]]. split; [now rewrite length_map |].
  apply Forall_forall. intros r Hr. apply in_map_iff in Hr as [w [<- Hw]].
  rewrite length_map2. rewrite Forall_forall in Hx. rewrite (Hx xb Hxb).
  destruct HW as [_ HWr]. rewrite Forall_forall in HWr. rewrite (HWr w Hw). lia. }
assert (Hbr : Forall (fun k => k < length W) (bmus (self st) x))
  by (now apply bmus_in_range).
assert (Hlinf : length influence = length diff)
  by (unfold influence, bmus; now rewrite !length_map).
assert (Hinfluence : Forall (fun r => length r = U) influence).
{ apply Forall_forall. intros r Hr. apply in_map_iff in Hr as [k [<- Hk]].
  rewrite Forall_forall in Hinfl. apply Hinfl, nth_In.
  rewrite Forall_forall in Hbr. specialize (Hbr k Hk). lia. }
split; [| split].
- unfold _propagate, bind, get_self.
  pose proof (@apply_influences_bmus (self st) x infl Hg Hne) as Ha.
  pose proof (forward_activations (self st) x) as Hf.
  unfold forward, distance_function in *. cbn [fst snd] in *.
  fold W in Ha, Hf |- *. fold diff in Ha, Hf |- *.
  unfold backward, bind, get_self, lift. rewrite Ha by lia.
  unfold modify_self. cbn [self np_random cp_random]. rewrite Hf. reflexivity.
- now apply iadd_mean_rect.
- intros u f Hu Hf.
  rewrite (iadd_mean_update_nth HW Hdiff Hlinf Hinfluence Hu Hf), Hldiff.
  f_equal. f_equal. f_equal. apply map_ext_in. intros b Hb. apply in_seq in Hb.
  assert (Hxb : length (nth b x []) = d).
  { rewrite Forall_forall in Hx. apply Hx, nth_In. lia. }
  assert (Hwu : length (nth u W []) = d).
  { destruct HW as [_ HWr]. rewrite Forall_forall in HWr. apply HWr, nth_In. lia. }
  f_equal.
  + unfold diff, _distance_difference.
    rewrite (nth_map_lt _ x [] []) by lia.
    rewrite (nth_map_lt _ W [] []) by lia.
    apply nth_map2; lia.
  + unfold influence. f_equal.
    apply (nth_map_lt (fun k => nth k infl []) (bmus (self st) x) 0 []).
    unfold bmus. rewrite length_map. lia.
Qed.
End PropagateEntries.

Section RealTrainingStep.
Context {RNG : Type} {EF : Externals R RNG}.
Local Open Scope R_scope.

(** One training step with influences between 0 and 1 moves no weight out of
    the range spanned by its old value and the batch: if the old weight (u, f)
    and feature f of every row of the batch lie in [lo, hi], so does the new
    weight (u, f). *)
Theorem training_step_stays_in_range (x infl : matrix R) (st : state R RNG)
        (U d u f : nat) (lo hi : R) :
  good_extremum (min_max (self st)) -> (1 <= U)%nat ->
  rect U d (weights (self st)) ->
  Forall (fun xb => length xb = d) x -> (1 <= length x)%nat ->
  length infl = U -> Forall (fun r => length r = U) infl ->
  Forall (Forall (fun a => 0 <= a <= 1)) infl ->
  (u < U)%nat -> (f < d)%nat ->
  lo <= nth f (nth u (weights (self st)) []) 0 <= hi ->
  (forall b, (b < length x)%nat -> lo <= nth f (nth b x []) 0 <= hi) ->
  exists st' act,
    _propagate x infl st = (st', inr act)
    /\ lo <= nth f (nth u (weights (self st')) []) 0 <= hi.
Proof.
intros Hg HU HW Hx Hn Hli Hinfl H01 Hu Hf Hw Hxb.
destruct (propagate_entries (x := x) (infl := infl) st Hg HU HW Hx Hli Hinfl)
  as [W' [E [_ Hent]]].
eexists _, _. split; [exact E |]. cbn [self weights set_weights].
pose proof (Hent u f Hu Hf) as Hv. change (f0 (F := R)) with 0 in Hv.
rewrite Hv. clear Hv Hent E.
set (w := nth f (nth u (weights (self st)) []) 0) in *.
set (terms := map (fun b => fmul (fsub (nth f (nth b x []) 0) w)
                       (nth u (nth (nth b (bmus (self st) x) 0%nat) infl []) 0))
                  (seq 0 (length x))).
assert (Hlen : length terms = length x)
  by (unfold terms; now rewrite length_map, length_seq).
assert (Hne : weights (self st) <> []).
{ destruct HW as [Hl _]. intro E0. rewrite E0 in Hl. simpl in Hl. lia. }
assert (Hterm : forall t, In t terms -> lo - w <= t <= hi - w).
{ intros t Ht. unfold terms in Ht. apply in_map_iff in Ht as [b [<- Hb]].
  apply in_seq in Hb.
  assert (Hk : (nth b (bmus (self st) x) 0%nat < U)%nat).
  { pose proof (@bmus_in_range _ _ (self st) x Hg Hne) as Hbr. rewrite Forall_forall in Hbr.
    destruct HW as [HWl _]. rewrite <- HWl. apply Hbr, nth_In.
    unfold bmus. rewrite length_map. lia. }
  assert (Ha : 0 <= nth u (nth (nth b (bmus (self st) x) 0%nat) infl []) 0 <= 1).
  { rewrite Forall_forall in H01.
    assert (Hrow : In (nth (nth b (bmus (self st) x) 0%nat) infl []) infl)
      by (apply nth_In; lia).
    specialize (H01 _ Hrow). rewrite Forall_forall in H01. apply H01, nth_In.
    rewrite Forall_forall in Hinfl. rewrite (Hinfl _ Hrow). exact Hu. }
  specialize (Hxb b ltac:(lia)).
  simpl fmul. simpl fsub.
  generalize dependent (nth u (nth (nth b (bmus (self st) x) 0%nat) infl []) 0).
  generalize dependent (nth f (nth b x []) 0). intros xv Hxv a Ha. nra. }
assert (Hhi : fsum terms <= INR (length terms) * (hi - w))
  by (apply fsum_le; intros t Ht; now apply Hterm).
assert (Hlo : INR (length terms) * (lo - w) <= fsum terms)
  by (apply fsum_ge; intros t Ht; now apply Hterm).
rewrite Hlen in Hhi, Hlo.
assert (HB : 0 < INR (length x)) by (apply lt_0_INR; lia).
rewrite of_nat_INR. simpl fadd. simpl fdiv.
fold terms.
assert (Hq : lo - w <= fsum terms / INR (length x) <= hi - w).
{ split.
  - apply Rmult_le_reg_l with (INR (length x)); [assumption |].
    unfold Rdiv. rewrite (Rmult_comm (fsum terms)), <- Rmult_assoc, Rinv_r, Rmult_1_l by lra.
    assumption.
  - apply Rmult_le_reg_l with (INR (length x)); [assumption |].
    unfold Rdiv. rewrite (Rmult_comm (fsum terms)), <- Rmult_assoc, Rinv_r, Rmult_1_l by lra.
    assumption. }
lra.
Qed.
End RealTrainingStep.

Lemma training_step_stays_in_range_witness :
  exists st' act,
    _propagate X_real influence_real (mk_state som_real tt tt) = (st', inr act)
    /\ (0 <= nth 0 (nth 0 (weights (self st')) []) 0 <= 1)%R.
Proof.
apply (training_step_stays_in_range (x := X_real) (infl := influence_real)
         (mk_state som_real tt tt) (U := 2) (d := 1) (u := 0) (f := 0)
         (lo := 0%R) (hi := 1%R)).
- apply np_min_good.
- lia.
- split; [reflexivity | repeat constructor].
- repeat constructor.
- simpl. lia.
- reflexivity.
- repeat constructor.
- repeat constructor; lra.
- lia.
- lia.
- simpl. lra.
- intros [| [| b]] Hb; simpl in *; [lra | lra | lia].
Defined.

(** ** Reproducibility of [fit] *)

Section Reproducible.
Context {F RNG : Type} {SF : Scalar F} {EF : Externals F RNG}.

Lemma same_ret (b : bool) {A} (x : A) : same_outcome F RNG b b (ret x).
Proof. intros st1 st2 H. simpl. auto. Qed.

Lemma same_raise (b b' : bool) {A} (e : exn) : same_outcome F RNG b b' (@raise _ A e).
Proof. intros st1 st2 [H _]. simpl. auto. Qed.

Lemma same_lift (b : bool) {A} (r : result A) : same_outcome F RNG b b (lift r).
Proof. intros st1 st2 H. unfold lift. destruct r; [destruct H |]; auto. Qed.

Lemma same_get_self (b : bool) : same_outcome F RNG b b get_self.
Proof. intros st1 st2 H. unfold get_self. split; [apply H | exact H]. Qed.

Lemma same_modify (b : bool) (g : Som F -> Som F) : same_outcome F RNG b b (modify_self g).
Proof.
intros st1 st2 [Hs Hr]. unfold modify_self. split; [reflexivity |].
split; simpl; [now rewrite Hs | exact Hr].
Qed.

Lemma same_with_numpy {A} (g : RNG -> A * RNG) : same_outcome F RNG true true (with_rng numpy g).
Proof.
intros st1 st2 [Hs Hr]. unfold with_rng. rewrite (Hr eq_refl).
destruct (g (np_random st2)) as [x r]. split; [reflexivity |]. split; simpl; auto.
Qed.

Lemma same_seed (b : bool) (r : RNG) :
  same_outcome F RNG b true (with_rng numpy (fun _ => (tt, r))).
Proof.
intros st1 st2 [Hs _]. unfold with_rng. split; [reflexivity |]. split; simpl; auto.
Qed.

Lemma same_bind (b b1 b2 : bool) {A B} (c : M F RNG A) (k : A -> M F RNG B) :
  same_outcome F RNG b b1 c -> (forall x, same_outcome F RNG b1 b2 (k x)) ->
  same_outcome F RNG b b2 (bind c k).
Proof.
intros Hc Hk st1 st2 H. specialize (Hc st1 st2 H). unfold bind.
destruct (c st1) as [s1 [e1 | x1]], (c st2) as [s2 [e2 | x2]]; try contradiction.
- exact Hc.
- destruct Hc as [<- Hc]. apply Hk, Hc.
Qed.

Lemma same_if (b b' : bool) {A} (t : bool) (c1 c2 : M F RNG A) :
  same_outcome F RNG b b' c1 -> same_outcome F RNG b b' c2 ->
  same_outcome F RNG b b' (if t then c1 else c2).
Proof. destruct t; auto. Qed.

Lemma same_create_batches d (X : matrix F) bs sh :
  same_outcome F RNG true true (_create_batches d X bs sh).
Proof.
unfold _create_batches. apply same_bind with (b1 := true).
- destruct sh; [apply same_with_numpy | apply same_ret].
- intro. apply same_if; [apply same_raise | apply same_ret].
Qed.

Lemma same_propagate (x infl : matrix F) : same_outcome F RNG true true (_propagate x infl).
Proof.
unfold _propagate. apply same_bind with (b1 := true); [apply same_get_self | intro s].
destruct (forward s x) as [act diff].
apply same_bind with (b1 := true); [| intro; apply same_ret].
unfold backward.
apply same_bind with (b1 := true); [apply same_get_self | intro].
apply same_bind with (b1 := true); [apply same_lift | intro].
apply same_modify.
Qed.

Lemma same_epoch_loop (X : list (matrix F)) data_len bs nb lr np l c :
  same_outcome F RNG true true (epoch_loop X data_len bs nb lr np l c).
Proof.
revert np l c; induction X as [| x X IH]; intros np l c; simpl.
- apply same_ret.
- apply same_bind with (b1 := true); [apply same_propagate | intro].
  apply same_bind with (b1 := true); [apply same_get_self | intro s].
  apply same_bind with (b1 := true).
  + apply same_if; [| apply same_ret].
    apply same_bind with (b1 := true); [apply same_lift | intro; apply same_ret].
  + intro c1. destruct (in_steps (idx c) lr); apply IH.
Qed.

Lemma same_epoch d (X : matrix F) nb lr bs c :
  same_outcome F RNG true true (_epoch d X nb lr bs c).
Proof.
unfold _epoch. apply same_bind with (b1 := true); [apply same_create_batches | intro].
apply same_bind with (b1 := true); [apply same_get_self | intro]. apply same_epoch_loop.
Qed.

Lemma same_epochs n d (X : matrix F) nb lr bs c :
  same_outcome F RNG true true (epochs n d X nb lr bs c).
Proof.
revert c; induction n as [| n IH]; intro c; simpl.
- apply same_ret.
- apply same_bind with (b1 := true); [apply same_epoch | intro; apply IH].
Qed.

Lemma same_pca_weights s d (X : matrix F) : same_outcome F RNG true true (pca_weights s d X).
Proof.
unfold pca_weights. destruct (nth_error (map_dimensions s) 1); [| apply same_raise].
apply same_bind with (b1 := true); [apply same_with_numpy |].
intros [e | [eigvec eigval]]; [apply same_raise | apply same_ret].
Qed.

Lemma same_random_weights s d (X : matrix F) :
  same_outcome F RNG true true (random_weights numpy s d X).
Proof.
unfold random_weights. apply same_if; [apply same_raise |].
apply same_bind with (b1 := true); [apply same_with_numpy | intro; apply same_ret].
Qed.

Lemma same_fit (X : ndarray F) (a : fit_args F) :
  module X = numpy -> same_outcome F RNG false true (fit X a).
Proof.
intro Hxp. unfold fit. rewrite Hxp.
apply same_bind with (b1 := false); [apply same_get_self | intro].
apply same_bind with (b1 := false); [apply same_lift | intro].
apply same_bind with (b1 := false); [apply same_modify | intro].
apply same_bind with (b1 := true); [apply same_seed | intro].
apply same_bind with (b1 := true); [apply same_get_self | intro].
apply same_bind with (b1 := true).
{ apply same_if; [| apply same_random_weights].
  apply same_if; [apply same_raise | apply same_pca_weights]. }
intro. apply same_bind with (b1 := true); [apply same_modify | intro].
apply same_if; [apply same_raise |].
apply same_bind with (b1 := true); [apply same_create_batches | intro].
apply same_bind with (b1 := true); [apply same_get_self | intro].
apply same_bind with (b1 := true); [apply same_lift | intro].
apply same_bind with (b1 := true); [apply same_modify | intro].
apply same_if; [apply same_raise |].
apply same_bind with (b1 := true); [apply same_get_self | intro].
apply same_bind with (b1 := true); [apply same_lift | intro].
apply same_bind with (b1 := true); [apply same_epochs | intro].
apply same_bind with (b1 := true); [apply same_modify | intro].
apply same_modify.
Qed.

(** [fit] on a numpy array is reproducible: the seed argument resets the
    generator before the first draw, so the way the call ends and the model it
    leaves are the same whatever the state of the two generators before the
    call. *)
Theorem fit_reproducible_on_numpy (X : ndarray F) (a : fit_args F)
        (st1 st2 : state F RNG) :
  module X = numpy -> self st1 = self st2 ->
  snd (fit X a st1) = snd (fit X a st2)
  /\ self (fst (fit X a st1)) = self (fst (fit X a st2)).
Proof.
intros Hxp Hs.
assert (H : alike false st1 st2) by (split; [assumption | discriminate]).
pose proof (@same_fit X a Hxp st1 st2 H) as Ho.
destruct (fit X a st1) as [s1 [e1 | x1]], (fit X a st2) as [s2 [e2 | x2]];
  try contradiction; simpl.
- destruct Ho as [-> Ho]. auto.
- destruct Ho as [-> [Ho _]]. auto.
Qed.
End Reproducible.

Lemma fit_reproducible_on_numpy_witness :
  snd (fit X_train args_train (mk_state (fresh_som [1; 2] 1 np_min) 0%Z 0%Z))
  = snd (fit X_train args_train (mk_state (fresh_som [1; 2] 1 np_min) 12345%Z 7%Z))
  /\ self (fst (fit X_train args_train (mk_state (fresh_som [1; 2] 1 np_min) 0%Z 0%Z)))
     = self (fst (fit X_train args_train
                      (mk_state (fresh_som [1; 2] 1 np_min) 12345%Z 7%Z))).
Proof.
apply (fit_reproducible_on_numpy X_train args_train
         (mk_state (fresh_som [1; 2] 1 np_min) 0%Z 0%Z)
         (mk_state (fresh_som [1; 2] 1 np_min) 12345%Z 7%Z)); reflexivity.
Defined.

(** On a cupy array the rows are still shuffled with numpy's generator, which
    the seed argument does not reset there: two calls that differ only in the
    state of numpy's generator train different weights. *)
Lemma fit_on_gpu_depends_on_numpy_generator :
  snd (fit X_gpu_train args_single (mk_state (fresh_som [1; 2] 1 np_min) 0%Z 0%Z))
  = inr tt
  /\ snd (fit X_gpu_train args_single (mk_state (fresh_som [1; 2] 1 np_min) 1%Z 0%Z))
     = inr tt
  /\ PrimFloat.eqb
       (nth 0 (nth 0 (weights (self (fst (fit X_gpu_train args_single
              (mk_state (fresh_som [1; 2] 1 np_min) 0%Z 0%Z))))) []) f0)
       (nth 0 (nth 0 (weights (self (fst (fit X_gpu_train args_single
              (mk_state (fresh_som [1; 2] 1 np_min) 1%Z 0%Z))))) []) f0)
     = false.
Proof. split; [| split]; vm_compute; reflexivity. Qed.

(** ** The counters of the epoch loop *)

Section Counters.
Context {F RNG : Type} {SF : Scalar F} {EF : Externals F RNG}.

Lemma scheduled_S (steps : list Z) (i k : nat) :
  scheduled steps i (S k)
  = (if in_steps i steps then 1 else 0) + scheduled steps (S i) k.
Proof. unfold scheduled. simpl. now destruct (in_steps i steps). Qed.

Lemma create_batches_length d (X : matrix F) bs sh (st st' : state F RNG) B :
  _create_batches d X bs sh st = (st', inr B) ->
  length B = ceil_div (length X) (Nat.min bs (length X)).
Proof.
unfold _create_batches. intro H. apply bind_inr in H as [X' [st1 [Hsh H]]].
assert (Hlen : length X' = length X).
{ destruct sh.
  - destruct (shuffle_perm X st) as [st2 [X2 [E [_ Hp]]]].
    rewrite E in Hsh. injection Hsh as _ <-. now apply Permutation_length.
  - unfold ret in Hsh. now injection Hsh as _ <-. }
rewrite Hlen in H.
replace (if length X <? bs then length X else bs) with (Nat.min bs (length X)) in H
  by (destruct (Nat.ltb_spec (length X) bs); lia).
destruct (Nat.min bs (length X) =? 0); [discriminate |].
unfold ret in H. injection H as _ <-. unfold resize. apply length_chunks.
Qed.

Lemma epoch_loop_counters (X : list (matrix F)) data_len bs nb lr np l
      (c c' : counters F) (st st' : state F RNG) :
  epoch_loop X data_len bs nb lr np l c st = (st', inr c') ->
  idx c' = idx c + length X
  /\ nb_step c' = nb_step c + scheduled nb (idx c) (length X)
  /\ lr_step c' = lr_step c + scheduled lr (idx c) (length X).
Proof.
revert np l c st; induction X as [| x X IH]; intros np l c st H.
- simpl in H. unfold ret in H. injection H as _ <-.
  unfold scheduled. simpl. lia.
- cbn [epoch_loop] in H.
  apply bind_inr in H as [act [st1 [_ H]]].
  apply bind_inr in H as [s [st2 [_ H]]].
  apply bind_inr in H as [c1 [st3 [Hc1 H]]].
  assert (E1 : idx c1 = idx c
               /\ nb_step c1 = nb_step c + (if in_steps (idx c) nb then 1 else 0)
               /\ lr_step c1 = lr_step c).
  { destruct (in_steps (idx c) nb).
    - apply bind_inr in Hc1 as [infl [st4 [_ Hc1]]].
      unfold ret in Hc1. injection Hc1 as _ <-. cbn. lia.
    - unfold ret in Hc1. injection Hc1 as _ <-. lia. }
  destruct E1 as [Ei [En El]].
  change (length (x :: X)) with (S (length X)). rewrite !scheduled_S.
  destruct (in_steps (idx c) lr); apply IH in H; cbn in H; rewrite Ei in H;
    destruct (in_steps (idx c) nb); lia.
Qed.

(** The counters [_epoch] returns: idx has advanced by the number of
    batches, one per batch whatever the batch size, and nb_step and lr_step by
    the number of batch indices passed that are in their set of update steps. *)
Theorem epoch_counters d (X : matrix F) nb lr bs (c c' : counters F)
        (st st' : state F RNG) :
  _epoch d X nb lr bs c st = (st', inr c') ->
  idx c' = idx c + ceil_div (length X) (Nat.min bs (length X))
  /\ nb_step c' = nb_step c
                  + scheduled nb (idx c) (ceil_div (length X) (Nat.min bs (length X)))
  /\ lr_step c' = lr_step c
                  + scheduled lr (idx c) (ceil_div (length X) (Nat.min bs (length X))).
Proof.
unfold _epoch. intro H.
apply bind_inr in H as [B [st1 [HB H]]].
apply bind_inr in H as [s [st2 [_ H]]].
apply create_batches_length in HB. rewrite <- HB.
exact (epoch_loop_counters _ _ _ _ _ _ _ _ _ H).
Qed.
End Counters.

Lemma epoch_counters_witness :
  idx epoch_run_counters
  = idx counters_0
    + ceil_div (length (rows X_train)) (Nat.min 2 (length (rows X_train)))
  /\ nb_step epoch_run_counters
     = nb_step counters_0
       + scheduled [1%Z] (idx counters_0)
                   (ceil_div (length (rows X_train)) (Nat.min 2 (length (rows X_train))))
  /\ lr_step epoch_run_counters
     = lr_step counters_0
       + scheduled [0%Z; 1%Z] (idx counters_0)
                   (ceil_div (length (rows X_train)) (Nat.min 2 (length (rows X_train)))).
Proof.
apply (@epoch_counters _ _ _ _ 1 (rows X_train) [1%Z] [0%Z; 1%Z] 2 counters_0
         epoch_run_counters (fst fit_min) (fst epoch_run)).
vm_compute. reflexivity.
Defined.

Example epoch_run_counts :
  (idx epoch_run_counters, nb_step epoch_run_counters, lr_step epoch_run_counters)
  = (2, 1, 2).
Proof. vm_compute. reflexivity. Qed.

(** ** A batch size of 0 *)

Section FitZeroBatch.
Context {F RNG : Type} {SF : Scalar F} {EF : Externals F RNG}.

End FitZeroBatch.


(** ** Training, then predicting *)

Section PredictAfterFit.
Context {F RNG : Type} {SF : Scalar F} {EF : Externals F RNG}.

(** Training then predicting. On the model that a returning [fit] left, for
    a model that had as many weight rows as units, at least one, [predict]
    on any non-empty input of data_dim columns returns one unit index per
    row, each below the unit count, and leaves the trained model as it is. *)
Theorem predict_after_fit (X X' : ndarray F) (a : fit_args F) (bs : nat)
        (st st' : state F RNG) :
  fit X a st = (st', inr tt) ->
  length (weights (self st)) = weight_dim (self st) ->
  1 <= weight_dim (self st) ->
  good_extremum (min_max (self st)) ->
  ndim X' = 2 -> shape1 X' = data_dim (self st) -> 1 <= shape0 X' -> 1 <= bs ->
  exists idxs,
    predict X' bs st' = (st', inr idxs)
    /\ length idxs = shape0 X'
    /\ Forall (fun i => i < weight_dim (self st)) idxs.
Proof.
intros Hfit HL HU Hg H2 Hd Hn Hbs.
pose proof (keeps_fit X a (h := hyper_of (self st)) st eq_refl) as Hh.
rewrite Hfit in Hh. cbn [fst] in Hh.
assert (Hwd : weight_dim (self st') = weight_dim (self st))
  by exact (f_equal h_weight_dim Hh).
assert (Hdd : data_dim (self st') = data_dim (self st))
  by exact (f_equal h_data_dim Hh).
assert (Hmm : min_max (self st') = min_max (self st))
  by exact (f_equal h_min_max Hh).
destruct (fit_weights_rect X a st Hfit) as [_ [_ [HWl _]]].
assert (HL' : length (weights (self st')) = weight_dim (self st')) by congruence.
set (W := weights (self st')) in *.
set (dist := map (activation_row W) (rows X')).
set (mm := min_max (self st)).
assert (Hrows : length (rows X') = shape0 X') by apply length_chunks.
assert (Hrow : forall row, In row dist -> row <> [] /\ length row = length W).
{ intros row Hin. apply in_map_iff in Hin as [x [<- _]].
  unfold activation_row. rewrite length_map. split; [| reflexivity].
  intro E. apply map_eq_nil in E. rewrite E in HL'. simpl in HL'. lia. }
exists (map (fun row => snd (selected mm row)) dist).
split; [| split].
- unfold predict, bind.
  rewrite (@predict_base_ok _ _ _ _ X' bs st') by (try assumption; congruence).
  unfold get_self, lift. fold W. fold dist. rewrite Hmm. fold mm.
  rewrite (mapM_inr (bmu_of mm) (fun row => snd (selected mm row))); [reflexivity |].
  intros row Hin. destruct (Hrow row Hin) as [Hne _].
  destruct (selected_good Hg Hne) as [E _]. fold mm in E.
  unfold bmu_of. rewrite E. now destruct (selected mm row).
- unfold dist. now rewrite !length_map.
- apply Forall_forall. intros i Hi. apply in_map_iff in Hi as [row [<- Hin]].
  destruct (Hrow row Hin) as [Hne Hlen].
  destruct (selected_good Hg Hne) as [_ [Hlt _]]. fold mm in Hlt. lia.
Qed.
End PredictAfterFit.

Lemma predict_after_fit_witness :
  exists idxs,
    predict X_3x1 2 (fst fit_min) = (fst fit_min, inr idxs)
    /\ length idxs = shape0 X_3x1
    /\ Forall (fun i => i < weight_dim (self (fresh_state (fresh_som [1; 2] 1 np_min))))
              idxs.
Proof.
apply (@predict_after_fit _ _ _ _ X_train X_3x1 args_train 2
         (fresh_state (fresh_som [1; 2] 1 np_min)) (fst fit_min)).
- vm_compute. reflexivity.
- reflexivity.
- vm_compute. lia.
- apply np_min_good.
- reflexivity.
- reflexivity.
- vm_compute. lia.
- lia.
Defined.

(** ** An input without rows *)

Section FitEmpty.
Context {F RNG : Type} {SF : Scalar F} {EF : Externals F RNG}.

Lemma raises_bind {A B} (c : M F RNG A) (k : A -> M F RNG B) :
  (forall x st, exists e, snd (k x st) = inl e) ->
  forall st, exists e, snd (bind c k st) = inl e.
Proof.
intros Hk st. unfold bind. destruct (c st) as [st1 [e | x]]; [now exists e |].
apply Hk.
Qed.

(** An array without rows passes [_check_input], and no call of [fit] on it
    returns: whatever the seeding does, the batch size is capped at the
    number of rows, 0, and the train length divides by it. *)
Theorem fit_empty_input_raises (X : ndarray F) (a : fit_args F) (st : state F RNG) :
  shape0 X = 0 -> exists e, snd (fit X a st) = inl e.
Proof.
intro Hn.
assert (Hlen : length (transform (Scaler_fit (shape1 X) (rows X)) (rows X)) = 0).
{ unfold transform, rows. now rewrite length_map, length_chunks. }
unfold fit. rewrite Hlen.
replace (if 0 <? batch_size a then 0 else batch_size a) with 0
  by (destruct (Nat.ltb_spec 0 (batch_size a)); lia).
cbn [Nat.eqb].
do 7 (apply raises_bind; intros ? ?).
now exists ZeroDivisionError.
Qed.
End FitEmpty.

Lemma fit_empty_input_raises_witness :
  exists e, snd (fit X_empty args_train (fresh_state (fresh_som [1; 2] 1 np_min))) = inl e.
Proof.
apply (fit_empty_input_raises X_empty args_train
         (fresh_state (fresh_som [1; 2] 1 np_min))).
reflexivity.
Defined.
